(** * bartz: examples/benchmark-device.py

    A shallow embedding of the device benchmark script and of its
    [textbox] helper, with the properties of its specification.

    The script is a top-level Python program: it threads a pseudo-random
    key through a sweep over dataset sizes, builds a sampler state per
    size, times one compiled multi-chain step per device and accumulates
    the elapsed times in the dictionary [times].  It is modelled as a
    state-and-exception monad over the script's global variables.  The
    collaborators (JAX's PRNG and array API, bartz, the clock and the
    device runtime) are taken as parameters. *)

From stdpp Require Import gmap strings list fin_maps.
From Stdlib Require Import ZArith Floats.

Set Warnings "-inexact-float,-register-all".
Set Default Proof Using "Type*".

(** ** Python outcomes *)

Inductive exn :=
| NameError (name : string)
| KeyError (key : string)
| ValueError (msg : string)
| AttributeError (attr : string)
| ExternalError (code : nat).

Inductive result (A : Type) :=
| Ok (a : A)
| Raise (e : exn).
Arguments Ok {A} a.
Arguments Raise {A} e.

Definition is_ok {A} (r : result A) : bool :=
  match r with Ok _ => true | Raise _ => false end.

(** ** The JAX interface used by the script

    [random.split], [random.uniform] and [random.normal] are pure functions
    of the key; arrays are opaque values with a shape. *)

Class Jax := {
  key : Type;
  array : Type;
  device : Type;
  mcmc_state : Type;
  random_key : Z → key;
  random_split : key → nat → list key;
  random_uniform : key → list Z → Z → Z → array;
  random_normal : key → list Z → array;
  jnp_cos : array → array;
  jnp_sum0 : array → array;
  jnp_scale : float → array → array;
  jnp_add : array → array → array;
  shape : array → list Z;
  split_length : ∀ k n, length (random_split k n) = n;
  uniform_shape : ∀ k s lo hi, shape (random_uniform k s lo hi) = s;
  normal_shape : ∀ k s, shape (random_normal k s) = s;
  cos_shape : ∀ a, shape (jnp_cos a) = shape a;
  scale_shape : ∀ c a, shape (jnp_scale c a) = shape a;
  sum0_shape : ∀ a, shape (jnp_sum0 a) = tail (shape a);
  add_shape : ∀ a b, shape a = shape b → shape (jnp_add a b) = shape a;
}.

(** The idealised splitting discipline: every key is identified by its
    derivation path from the seed, the child at position [i] of a split
    extending its parent's path by [i]. *)

Class SplitTree (J : Jax) := {
  path : key → list Z;
  path_inj : ∀ k1 k2, path k1 = path k2 → k1 = k2;
  path_split : ∀ k n (i : nat) c,
    random_split k n !! i = Some c → path c = Z.of_nat i :: path k;
}.

Section Benchmark.
Context {J : Jax}.

(** ** Configuration (the script's module-level constants) *)

Record BenchmarkConfig := {
  devices : list (string * device);
  ntree : Z;
  mcmc_iterations : Z;
  nchains : nat;
  nvec : list Z;
  p : Z;
  sigma : float;
  seed : Z;
}.

(** ** The fallible collaborators of one run *)

Record Env := {
  perf_counter : nat → float;
  gbart : array → array → Z → result mcmc_state;
  device_put : device → mcmc_state → list key → result unit;
  lower_compile : device → mcmc_state → list key → result unit;
  task_call : device → mcmc_state → list key → result unit;
  block_until_ready : device → mcmc_state → list key → result unit;
}.

(** ** Observable actions, in program order

    [ESplit] is the split of the sweep key (line 70), [EChainSplit] the
    split of the chain-keys root (line 85); [ETask] is the timed call,
    which hands one key to each chain. *)

Inductive event :=
| ESplit (parent : key) (children : list key)
| EChainSplit (label : string) (parent : key) (children : list key)
| EUniform (k : key) (shp : list Z)
| ENormal (k : key) (shp : list Z)
| EGbart (n : Z) (X y : array)
| EDevicePut (label : string) (st : mcmc_state) (keys : list key)
| ETask (label : string) (st : mcmc_state) (keys : list key)
| EAppend (n : Z) (label : string) (t : float)
| EDel (label : string).

(** ** The script's state *)

Record world := {
  w_key : key;
  w_state : option mcmc_state;
  w_times : gmap string (list float);
  w_clock : nat;
  w_pending : list nat;
  w_next : nat;
  w_log : list event;
}.

Definition M (A : Type) : Type := world → result A * world.

Definition raise {A} (e : exn) : M A := λ w, (Raise e, w).
Definition lift {A} (r : result A) : M A := λ w, (r, w).

#[export] Instance M_ret : MRet M := λ A a w, (Ok a, w).
#[export] Instance M_bind : MBind M := λ A B f m w,
  match m w with
  | (Ok a, w') => f a w'
  | (Raise e, w') => (Raise e, w')
  end.

Fixpoint for_each {A} (l : list A) (body : A → M unit) : M unit :=
  match l with
  | [] => mret tt
  | x :: l' => body x ;; for_each l' body
  end.

(** Updates of the script's global variables *)

Definition set_key (k : key) (w : world) : world :=
  {| w_key := k; w_state := w_state w; w_times := w_times w;
     w_clock := w_clock w; w_pending := w_pending w;
     w_next := w_next w; w_log := w_log w |}.
Definition set_state (s : option mcmc_state) (w : world) : world :=
  {| w_key := w_key w; w_state := s; w_times := w_times w;
     w_clock := w_clock w; w_pending := w_pending w;
     w_next := w_next w; w_log := w_log w |}.
Definition set_times (t : gmap string (list float)) (w : world) : world :=
  {| w_key := w_key w; w_state := w_state w; w_times := t;
     w_clock := w_clock w; w_pending := w_pending w;
     w_next := w_next w; w_log := w_log w |}.
Definition set_clock (c : nat) (w : world) : world :=
  {| w_key := w_key w; w_state := w_state w; w_times := w_times w;
     w_clock := c; w_pending := w_pending w;
     w_next := w_next w; w_log := w_log w |}.
Definition set_pending (l : list nat) (nxt : nat) (w : world) : world :=
  {| w_key := w_key w; w_state := w_state w; w_times := w_times w;
     w_clock := w_clock w; w_pending := l;
     w_next := nxt; w_log := w_log w |}.
Definition set_log (l : list event) (w : world) : world :=
  {| w_key := w_key w; w_state := w_state w; w_times := w_times w;
     w_clock := w_clock w; w_pending := w_pending w;
     w_next := w_next w; w_log := l |}.

Definition modify (g : world → world) : M unit := λ w, (Ok tt, g w).

Definition emit (e : event) : M unit :=
  modify (λ w, set_log (w_log w ++ [e]) w).

(** ** Data generating process (lines 44-52) *)

Definition pi : float := 3.141592653589793%float.

Definition f (x : array) : array :=
  let T := 2%float in
  jnp_sum0 (jnp_cos (jnp_scale (2 * pi / T)%float x)).

Definition gen_X (k : key) (p n : Z) : array :=
  random_uniform k [p; n] (-2) 2.

Definition gen_y (sigma : float) (k : key) (X : array) : array :=
  jnp_add (f X) (jnp_scale sigma (random_normal k (tail (shape X)))).

(** ** The Timer context manager (lines 57-62) *)

Record Timer := { start : option float; time : option float }.

Definition Timer_new : Timer := {| start := None; time := None |}.

Section Sweep.
Variable cfg : BenchmarkConfig.
Variable env : Env.

Definition time_perf_counter : M float :=
  λ w, (Ok (perf_counter env (w_clock w)), set_clock (S (w_clock w)) w).

Definition Timer__enter__ (self : Timer) : M Timer :=
  t ← time_perf_counter;
  mret {| start := Some t; time := time self |}.

(** [__exit__] returns [None]: the flag that asks Python to swallow a
    pending exception is false. *)
Definition Timer__exit__ (self : Timer) : M (Timer * bool) :=
  t ← time_perf_counter;
  s ← match start self with
      | Some s => mret s
      | None => raise (AttributeError "start")
      end;
  mret ({| start := start self; time := Some (t - s)%float |}, false).

(** [with Timer() as timer: body].  The manager object outlives the
    statement, so it is returned next to the statement's outcome. *)
Definition with_Timer (body : M unit) : world → (Timer * result unit) * world :=
  λ w,
  match Timer__enter__ Timer_new w with
  | (Raise e, w0) => ((Timer_new, Raise e), w0)
  | (Ok self, w0) =>
    let '(r, w1) := body w0 in
    match Timer__exit__ self w1 with
    | (Raise e', w2) => ((self, Raise e'), w2)
    | (Ok (self', suppress), w2) =>
      match r with
      | Ok _ => ((self', Ok tt), w2)
      | Raise e => ((self', if suppress then Ok tt else Raise e), w2)
      end
    end
  end.

Definition timed (body : M unit) : M Timer :=
  λ w, let '((timer, r), w') := with_Timer body w in
       (match r with Ok _ => Ok timer | Raise e => Raise e end, w').

Definition timer_time (timer : Timer) : M float :=
  match time timer with
  | Some t => mret t
  | None => raise (AttributeError "time")
  end.

(** ** The sweep (lines 64-107) *)

Definition get_key : M key := λ w, (Ok (w_key w), w).

Definition read_state : M mcmc_state :=
  λ w, match w_state w with
       | Some s => (Ok s, w)
       | None => (Raise (NameError "state"), w)
       end.

Definition split (k : key) (n : nat) : M (list key) :=
  let ks := random_split k n in
  emit (ESplit k ks);; mret ks.

Definition build_state (n : Z) (X y : array) : M unit :=
  emit (EGbart n X y);;
  st ← lift (gbart env X y (ntree cfg));
  modify (set_state (Some st)).

Definition chain_split (label : string) (k : key) (n : nat) : M (list key) :=
  let ks := random_split k n in
  emit (EChainSplit label k ks);; mret ks.

(** [jax.device_put] places the same values on the device; placement may
    fail, the values do not change. *)
Definition put (label : string) (d : device) (st : mcmc_state) (keys : list key)
  : M (mcmc_state * list key) :=
  emit (EDevicePut label st keys);;
  lift (device_put env d st keys);;
  modify (set_state (Some st));;
  mret (st, keys).

Definition dispatch : M nat :=
  λ w, (Ok (w_next w), set_pending (w_pending w ++ [w_next w]) (S (w_next w)) w).

(** [task(state, keys)] dispatches the compiled computation and returns a
    handle on its pending outputs. *)
Definition task (label : string) (d : device) (st : mcmc_state) (keys : list key)
  : M nat :=
  emit (ETask label st keys);;
  lift (task_call env d st keys);;
  dispatch.

(** [jax.block_until_ready(h)] returns once the outputs behind [h] are
    settled, with a value or with the error they ended in. *)
Definition jax_block_until_ready (h : nat) (d : device) (st : mcmc_state)
    (keys : list key) : M unit :=
  λ w, (block_until_ready env d st keys,
        set_pending (filter (λ h', h' ≠ h) (w_pending w)) (w_next w) w).

Definition timed_block (label : string) (d : device) (st : mcmc_state)
    (keys : list key) : M unit :=
  h ← task label d st keys;
  jax_block_until_ready h d st keys.

Definition times_append (n : Z) (label : string) (t : float) : M unit :=
  emit (EAppend n label t);;
  modify (λ w, set_times (<[label := default [] (w_times w !! label) ++ [t]]> (w_times w)) w).

Definition del_state (label : string) : M unit :=
  read_state;;
  emit (EDel label);;
  modify (set_state None).

(** Lines 95-105: time the body, save the result, release the state. *)
Definition clock_and_save (body : M unit) (n : Z) (label : string) : M unit :=
  timer ← timed body;
  t ← timer_time timer;
  times_append n label t;;
  del_state label.

Definition per_device (n : Z) (subkey3 : key) (ld : string * device) : M unit :=
  let '(label, d) := ld in
  keys ← chain_split label subkey3 (nchains cfg);
  st ← read_state;
  '(st', keys') ← put label d st keys;
  lift (lower_compile env d st' keys');;
  clock_and_save (timed_block label d st' keys') n label.

Definition per_size (n : Z) : M unit :=
  k ← get_key;
  ks ← split k 4;
  match ks with
  | [key'; subkey1; subkey2; subkey3] =>
    modify (set_key key');;
    emit (EUniform subkey1 [p cfg; n]);;
    let X := gen_X subkey1 (p cfg) n in
    emit (ENormal subkey2 [n]);;
    let y := jnp_add (f X) (jnp_scale (sigma cfg) (random_normal subkey2 [n])) in
    build_state n X y;;
    for_each (devices cfg) (per_device n subkey3)
  | _ => raise (ValueError "unpack")
  end.

Definition sweep : M unit := for_each (nvec cfg) per_size.

Definition init : world :=
  {| w_key := random_key (seed cfg); w_state := None; w_times := ∅;
     w_clock := 0; w_pending := []; w_next := 0; w_log := [] |}.

Definition run : result unit * world := sweep init.

End Sweep.

(** ** Views of the log *)

Definition device_event (e : event) : bool :=
  match e with
  | EChainSplit _ _ _ | EDevicePut _ _ _ | ETask _ _ _
  | EAppend _ _ _ | EDel _ => true
  | _ => false
  end.

(** The key derivations and datasets of the sweep: the events of lines
    70-75. *)
Definition sweep_data (l : list event) : list event :=
  filter (λ e, device_event e = false) l.

Definition next_key (k : key) : key := nth 0 (random_split k 4) k.
Definition subkey (k : key) (i : nat) : key := nth i (random_split k 4) k.

Definition dataset (cfg : BenchmarkConfig) (k : key) (n : Z) : array * array :=
  let X := gen_X (subkey k 1) (p cfg) n in
  (X, jnp_add (f X) (jnp_scale (sigma cfg) (random_normal (subkey k 2) [n]))).

Definition size_events (cfg : BenchmarkConfig) (k : key) (n : Z) : list event :=
  [ESplit k (random_split k 4);
   EUniform (subkey k 1) [p cfg; n];
   ENormal (subkey k 2) [n];
   EGbart n (dataset cfg k n).1 (dataset cfg k n).2].

(** The derivations of a sweep over [ns] that starts from the key [k]. *)
Fixpoint sweep_events (cfg : BenchmarkConfig) (k : key) (ns : list Z) : list event :=
  match ns with
  | [] => []
  | n :: ns' => size_events cfg k n ++ sweep_events cfg (next_key k) ns'
  end.

(** The noise draws and the datasets handed to the state builder. *)
Definition draws (l : list event) : list (key * list Z) :=
  omap (λ e, match e with ENormal k s => Some (k, s) | _ => None end) l.

Definition builds (l : list event) : list (Z * array * array) :=
  omap (λ e, match e with EGbart n X y => Some (n, X, y) | _ => None end) l.

(** The keys handed to a splitting or drawing operation. *)
Definition consumed_by (e : event) : list key :=
  match e with
  | ESplit k _ | EChainSplit _ k _ | EUniform k _ | ENormal k _ => [k]
  | ETask _ _ ks => ks
  | _ => []
  end.

Definition consumed (l : list event) : list key :=
  concat (consumed_by <$> l).

(** The (size, device) pairs in the order their times were appended. *)
Definition appends (l : list event) : list (Z * string) :=
  omap (λ e, match e with EAppend n label _ => Some (n, label) | _ => None end) l.

Definition record_time (m : gmap string (list float)) (e : event)
  : gmap string (list float) :=
  match e with
  | EAppend _ label t => <[label := default [] (m !! label) ++ [t]]> m
  | _ => m
  end.

(** The table obtained by replaying the appends of a log. *)
Definition times_of (l : list event) : gmap string (list float) :=
  foldl record_time ∅ l.

Definition total_entries (m : gmap string (list float)) : nat :=
  map_fold (λ _ ts acc, length ts + acc) 0 m.

(** The sweep order: sizes outermost, devices innermost. *)
Definition sweep_order (cfg : BenchmarkConfig) : list (Z * string) :=
  n ← nvec cfg; (λ ld, (n, ld.1)) <$> devices cfg.

(** The keys one size can consume: the sweep key, its X, y-noise and
    chain-root children, and the chain keys; and those of a whole sweep. *)
Definition size_keys (cfg : BenchmarkConfig) (k : key) : list key :=
  [k; subkey k 1; subkey k 2] ++
  subkey k 3 :: random_split (subkey k 3) (nchains cfg).

Fixpoint key_tree (cfg : BenchmarkConfig) (k : key) (ns : list Z) : list key :=
  match ns with
  | [] => []
  | _ :: ns' => size_keys cfg k ++ key_tree cfg (next_key k) ns'
  end.

(** ** The claims that the script does not meet, as stated *)

(** Every key is consumed at most once. *)
Definition keys_consumed_once (cfg : BenchmarkConfig) (env : Env) : Prop :=
  NoDup (consumed (w_log (run cfg env).2)).

(** The Timer scope is a barrier for its body: nothing is pending at its
    exit that was not pending at its entry. *)
Definition Timer_is_barrier (env : Env) (body : M unit) (w : world) : Prop :=
  w_pending (with_Timer env body w).2 ⊆ w_pending w.

(** Every step draws the noise of the response twice. *)
Definition two_draws_per_step (cfg : BenchmarkConfig) (env : Env) : Prop :=
  length (draws (w_log (run cfg env).2)) =
  2 * length (builds (w_log (run cfg env).2)).

(** ** Further views *)

(** The elapsed times in the order they were appended. *)
Definition append_times (l : list event) : list float :=
  omap (λ e, match e with EAppend _ _ t => Some t | _ => None end) l.

(** The number of times the table holds for a label. *)
Definition entries (m : gmap string (list float)) (label : string) : nat :=
  length (default [] (m !! label)).

(** An environment in which no collaborator raises. *)
Definition never_fails (env : Env) : Prop :=
  (∀ X y nt, ∃ st, gbart env X y nt = Ok st)
  ∧ (∀ d st ks, device_put env d st ks = Ok tt)
  ∧ (∀ d st ks, lower_compile env d st ks = Ok tt)
  ∧ (∀ d st ks, task_call env d st ks = Ok tt)
  ∧ (∀ d st ks, block_until_ready env d st ks = Ok tt).

(** The sweep keys of the steps a run started: the keys split at line 70. *)
Definition steps (l : list event) : list key :=
  omap (λ e, match e with ESplit k _ => Some k | _ => None end) l.

(** The number of task calls. *)
Definition task_calls (l : list event) : nat :=
  length (omap (λ e, match e with ETask _ _ ks => Some ks | _ => None end) l).

(** The sweep keys of a sweep over [ns] that starts from [k], the noise
    draw each of its steps makes, from the y-noise key [subkey2], and the
    dataset each step hands to the state builder. *)
Fixpoint key_chain (k : key) (ns : list Z) : list key :=
  match ns with
  | [] => []
  | _ :: ns' => k :: key_chain (next_key k) ns'
  end.

Fixpoint step_draws (k : key) (ns : list Z) : list (key * list Z) :=
  match ns with
  | [] => []
  | n :: ns' => (subkey k 2, [n]) :: step_draws (next_key k) ns'
  end.

Fixpoint step_builds (cfg : BenchmarkConfig) (k : key) (ns : list Z)
  : list (Z * array * array) :=
  match ns with
  | [] => []
  | n :: ns' =>
      let X := gen_X (subkey k 1) (p cfg) n in
      (n, X, jnp_add (f X) (jnp_scale (sigma cfg) (random_normal (subkey k 2) [n])))
      :: step_builds cfg (next_key k) ns'
  end.

End Benchmark.

Arguments run {J} cfg env.
Arguments sweep {J} cfg env.

(** ** The annotation box (lines 109-165)

    Python values as far as [textbox] looks into them, dictionaries as
    finite maps.  The loop over [kw.items()] is a fold over the map: each
    iteration only touches the entry of its own key. *)

Inductive pyval :=
| PStr (s : string)
| PInt (z : Z)
| PFloat (x : float)
| PTuple (l : list pyval)
| PDict (d : gmap string pyval)
| PObj (id : nat).

(** [d.update(other)] *)
Definition dict_update (d other : gmap string pyval) : gmap string pyval :=
  other ∪ d.

Definition locparam (xy xytext : pyval * pyval) (va ha : string)
  : gmap string pyval :=
  list_to_map [("xy"%string, PTuple [xy.1; xy.2]);
               ("xytext"%string, PTuple [xytext.1; xytext.2]);
               ("va"%string, PStr va); ("ha"%string, PStr ha)].

Definition locparams : gmap string (gmap string pyval) :=
  let M := 8%Z in
  let half := PFloat 0.5 in
  list_to_map [
    ("lower left"%string,
       locparam (PInt 0, PInt 0) (PInt M, PInt M) "bottom" "left");
    ("lower center"%string,
       locparam (half, PInt 0) (PInt 0, PInt M) "bottom" "center");
    ("lower right"%string,
       locparam (PInt 1, PInt 0) (PInt (- M), PInt M) "bottom" "right");
    ("center left"%string,
       locparam (PInt 0, half) (PInt M, PInt 0) "center" "left");
    ("center center"%string,
       locparam (half, half) (PInt 0, PInt 0) "center" "center");
    ("center right"%string,
       locparam (PInt 1, half) (PInt (- M), PInt 0) "center" "right");
    ("upper left"%string,
       locparam (PInt 0, PInt 1) (PInt M, PInt (- M)) "top" "left");
    ("upper center"%string,
       locparam (half, PInt 1) (PInt 0, PInt (- M)) "top" "center");
    ("upper right"%string,
       locparam (PInt 1, PInt 1) (PInt (- M), PInt (- M)) "top" "right")].

Definition bbox_defaults : gmap string pyval :=
  list_to_map [("facecolor"%string, PStr "white");
               ("alpha"%string, PFloat 0.75);
               ("edgecolor"%string, PStr "#ccc");
               ("boxstyle"%string, PStr "round")].

Definition kwargs_defaults : gmap string pyval :=
  list_to_map [("xycoords"%string, PStr "axes fraction");
               ("textcoords"%string, PStr "offset points");
               ("bbox"%string, PDict bbox_defaults)].

(** One iteration of the loop of lines 159-162, on [(kwargs, newkw)]. *)
Definition merge_step (k : string) (v : pyval)
    (st : gmap string pyval * gmap string pyval)
  : gmap string pyval * gmap string pyval :=
  match v, st.1 !! k with
  | PDict vd, Some (PDict kd) =>
      (<[k := PDict (dict_update kd vd)]> st.1, delete k st.2)
  | _, _ => st
  end.

(** The keyword arguments [textbox] hands to [ax.annotate]. *)
Definition textbox_kwargs (loc : string) (kw : gmap string pyval)
  : result (gmap string pyval) :=
  match locparams !! loc with
  | None => Raise (KeyError loc)
  | Some lp =>
      let kwargs := dict_update kwargs_defaults lp in
      let newkw := kw in
      let st := map_fold merge_step (kwargs, newkw) kw in
      Ok (dict_update st.1 st.2)
  end.

Definition textbox {Ax R : Type} (annotate : Ax → string → gmap string pyval → R)
    (ax : Ax) (text : string) (loc : string) (kw : gmap string pyval)
  : result R :=
  match textbox_kwargs loc kw with
  | Ok kwargs => Ok (annotate ax text kwargs)
  | Raise e => Raise e
  end.

(** The nine locations of the docstring, 'lower/center/upper
    left/center/right', and the keys [textbox] always passes on. *)
Definition valid_locs : list string :=
  ["lower left"; "lower center"; "lower right";
   "center left"; "center center"; "center right";
   "upper left"; "upper center"; "upper right"]%string.

Definition annotate_keys : list string :=
  ["xycoords"; "textcoords"; "bbox"; "xy"; "xytext"; "va"; "ha"]%string.

(** A position along one axis: its word in [loc], the fractional axis
    coordinate of the anchor, the direction of the offset and the text
    alignment. *)
Definition vertical_anchors : list (string * pyval * Z * string) :=
  [("lower", PInt 0, 1, "bottom"); ("center", PFloat 0.5, 0, "center");
   ("upper", PInt 1, -1, "top")]%string%Z.

Definition horizontal_anchors : list (string * pyval * Z * string) :=
  [("left", PInt 0, 1, "left"); ("center", PFloat 0.5, 0, "center");
   ("right", PInt 1, -1, "right")]%string%Z.

(** The placement rule: the anchor is the pair of coordinates, the offset
    is 8 points along each direction, the alignments are those of the two
    positions. *)
Definition placement_rule : list (string * gmap string pyval) :=
  v ← vertical_anchors; h ← horizontal_anchors;
  [(v.1.1.1 +:+ " " +:+ h.1.1.1,
    locparam (h.1.1.2, v.1.1.2) (PInt (8 * h.1.2), PInt (8 * v.1.2)) v.2 h.2)].

(** ** A symbolic instance

    Keys are derivation paths, arrays are the expressions that produced
    them.  It shows that the interface laws are satisfiable and lets the
    script run on concrete configurations. *)

Module Sym.

Inductive sarr :=
| SUniform (k : list Z) (shp : list Z) (lo hi : Z)
| SNormal (k : list Z) (shp : list Z)
| SCos (a : sarr)
| SSum0 (a : sarr)
| SScale (c : float) (a : sarr)
| SAdd (a b : sarr).

Fixpoint sshape (a : sarr) : list Z :=
  match a with
  | SUniform _ shp _ _ => shp
  | SNormal _ shp => shp
  | SCos a => sshape a
  | SSum0 a => tail (sshape a)
  | SScale _ a => sshape a
  | SAdd a _ => sshape a
  end.

Definition ssplit (k : list Z) (n : nat) : list (list Z) :=
  (λ i : nat, Z.of_nat i :: k) <$> seq 0 n.

Lemma ssplit_length k n : length (ssplit k n) = n.
Proof. unfold ssplit. by rewrite length_fmap, length_seq. Qed.

Lemma ssplit_lookup k n (i : nat) c :
  ssplit k n !! i = Some c → c = Z.of_nat i :: k.
Proof.
  unfold ssplit. rewrite list_lookup_fmap.
  destruct (seq 0 n !! i) as [j|] eqn:E; simpl; [|done].
  apply lookup_seq in E as [-> _]. by intros [= <-].
Qed.

#[export] Program Instance jax : Jax := {|
  key := list Z;
  array := sarr;
  device := nat;
  mcmc_state := sarr * sarr;
  random_key s := [s];
  random_split := ssplit;
  random_uniform := SUniform;
  random_normal := SNormal;
  jnp_cos := SCos;
  jnp_sum0 := SSum0;
  jnp_scale := SScale;
  jnp_add := SAdd;
  shape := sshape;
  split_length := ssplit_length;
|}.
Solve All Obligations with done.

#[export] Program Instance split_tree : SplitTree jax := {|
  path k := k;
|}.
Next Obligation. done. Qed.
Next Obligation. intros k n i c Hc. by apply ssplit_lookup in Hc. Qed.

(** An environment in which no collaborator fails; the [i]-th clock
    reading is [i] seconds. *)
Definition env_ok : Env := {|
  perf_counter i := PrimFloat.of_uint63 (Uint63.of_Z (Z.of_nat i));
  gbart X y _ := Ok (X, y);
  device_put _ _ _ := Ok tt;
  lower_compile _ _ _ := Ok tt;
  task_call _ _ _ := Ok tt;
  block_until_ready _ _ _ := Ok tt;
|}.

(** The shipped configuration, on its one device. *)
Definition shipped : BenchmarkConfig := {|
  devices := [("cpu"%string, 0)];
  ntree := 200;
  mcmc_iterations := 1;
  nchains := 8;
  nvec := [100; 200; 500; 1000; 2000; 5000; 10000; 20000; 50000; 100000;
           200000; 500000; 1000000; 2000000; 5000000; 10000000; 20000000;
           50000000; 100000000]%Z;
  p := 10;
  sigma := 0.1%float;
  seed := 202403241634;
|}.

(** The same with the commented-out second device enabled, on one size. *)
Definition two_devices : BenchmarkConfig := {|
  devices := [("cpu"%string, 0); ("gpu"%string, 1)];
  ntree := 200;
  mcmc_iterations := 1;
  nchains := 8;
  nvec := [100]%Z;
  p := 10;
  sigma := 0.1%float;
  seed := 202403241634;
|}.

(** A small sweep: two sizes, one device, two covariates, two chains. *)
Definition small : BenchmarkConfig := {|
  devices := [("cpu"%string, 0)];
  ntree := 10;
  mcmc_iterations := 1;
  nchains := 2;
  nvec := [100; 1000]%Z;
  p := 2;
  sigma := 0.1%float;
  seed := 202403241634;
|}.

(** The same sizes, [p], [sigma] and seed with everything else changed. *)
Definition small_two_devices : BenchmarkConfig := {|
  devices := [("cpu"%string, 0); ("gpu"%string, 1)];
  ntree := 200;
  mcmc_iterations := 3;
  nchains := 8;
  nvec := [100; 1000]%Z;
  p := 2;
  sigma := 0.1%float;
  seed := 202403241634;
|}.

(** An environment whose runtime fails while the outputs are awaited. *)
Definition env_wait_fails : Env := {|
  perf_counter i := PrimFloat.of_uint63 (Uint63.of_Z (7 * Z.of_nat i));
  gbart X y _ := Ok (X, y);
  device_put _ _ _ := Ok tt;
  lower_compile _ _ _ := Ok tt;
  task_call _ _ _ := Ok tt;
  block_until_ready _ _ _ := Raise (ExternalError 1);
|}.

(** An environment whose compilation fails. *)
Definition env_compile_fails : Env := {|
  perf_counter i := PrimFloat.of_uint63 (Uint63.of_Z (Z.of_nat i));
  gbart X y _ := Ok (X, y);
  device_put _ _ _ := Ok tt;
  lower_compile _ _ _ := Raise (ExternalError 2);
  task_call _ _ _ := Ok tt;
  block_until_ready _ _ _ := Ok tt;
|}.

Definition X0 : @array jax := SUniform [1; 7]%Z [10; 100]%Z (-2) 2.
Definition k0 : @key jax := [2; 7]%Z.

(** A timed body that calls the task and does not wait for it. *)
Definition call_without_wait : M unit :=
  task env_ok "cpu" 0 (X0, X0) [[0; 3; 7]%Z] ≫= λ _, mret tt.

End Sym.


(** * Properties *)

Section Properties.
Context {J : Jax}.
Implicit Types (cfg : BenchmarkConfig) (env : Env) (w : world).
Local Arguments size_events : simpl never.

Lemma split4 (k : key) :
  ∃ k0 k1 k2 k3, random_split k 4 = [k0; k1; k2; k3].
Proof.
  pose proof (split_length k 4) as H.
  destruct (random_split k 4) as [|k0 [|k1 [|k2 [|k3 [|]]]]]; try done.
  by exists k0, k1, k2, k3.
Qed.

Ltac run_m :=
  unfold mbind, M_bind, mret, M_ret, lift, raise, modify, emit in *; simpl in *.

(** One device iteration, by the point at which it stops. *)
Lemma per_device_cases cfg env n k3 label d w :
  let keys := random_split k3 (nchains cfg) in
  let r := (per_device cfg env n k3 (label, d) w).1 in
  let w' := (per_device cfg env n k3 (label, d) w).2 in
  w_key w' = w_key w ∧
  ((w_state w = None ∧ r = Raise (NameError "state") ∧
    w_times w' = w_times w ∧ w_state w' = None ∧
    w_log w' = w_log w ++ [EChainSplit label k3 keys])
   ∨ (∃ st e, w_state w = Some st ∧ r = Raise e ∧
      w_times w' = w_times w ∧
      w_log w' = w_log w ++ [EChainSplit label k3 keys; EDevicePut label st keys])
   ∨ (∃ st e, w_state w = Some st ∧ r = Raise e ∧
      w_times w' = w_times w ∧
      w_log w' = w_log w ++ [EChainSplit label k3 keys; EDevicePut label st keys;
                              ETask label st keys])
   ∨ (∃ st t, w_state w = Some st ∧ r = Ok tt ∧ w_state w' = None ∧
      w_times w' = <[label := default [] (w_times w !! label) ++ [t]]> (w_times w) ∧
      w_log w' = w_log w ++ [EChainSplit label k3 keys; EDevicePut label st keys;
                              ETask label st keys; EAppend n label t; EDel label])).
Proof.
  intros keys r w'. subst r w' keys.
  unfold per_device, clock_and_save, chain_split, read_state, put, timed,
    with_Timer,
    Timer__enter__, Timer__exit__, time_perf_counter, timed_block, task,
    dispatch, jax_block_until_ready, timer_time, times_append, del_state,
    read_state.
  run_m. generalize (random_split k3 (nchains cfg)). intros keys.
  destruct (w_state w) as [st|] eqn:Hst; simpl.
  2: { split; [done|]. left. by rewrite <- ?app_assoc. }
  destruct (device_put env d st keys) eqn:Hput; simpl.
  2: { split; [done|]. right; left. exists st, e. by rewrite <- ?app_assoc. }
  destruct (lower_compile env d st keys) eqn:Hc; simpl.
  2: { split; [done|]. right; left. exists st, e. by rewrite <- ?app_assoc. }
  destruct (task_call env d st keys) eqn:Ht; simpl.
  2: { split; [done|]. right; right; left. exists st, e. by rewrite <- ?app_assoc. }
  destruct (block_until_ready env d st keys) eqn:Hb; simpl.
  2: { split; [done|]. right; right; left. exists st, e. by rewrite <- ?app_assoc. }
  split; [done|]. right; right; right. destruct a, a0, a1, a2.
  eexists st, _. by rewrite <- ?app_assoc.
Qed.

Lemma for_each_cons {A} (x : A) l (body : A → M unit) w :
  for_each (x :: l) body w =
  match body x w with
  | (Ok _, w') => for_each l body w'
  | (Raise e, w') => (Raise e, w')
  end.
Proof. done. Qed.

Lemma sweep_data_app (l1 l2 : list event) :
  sweep_data (l1 ++ l2) = sweep_data l1 ++ sweep_data l2.
Proof. apply filter_app. Qed.

Lemma sweep_data_device (l : list event) :
  Forall (λ e, device_event e = true) l → sweep_data l = [].
Proof.
  induction 1 as [|e l He _ IH]; [done|].
  unfold sweep_data in *. rewrite filter_cons_False; [done|congruence].
Qed.

(** The device loop only adds device events and leaves the sweep key. *)
Lemma device_loop_log cfg env n k3 devs w :
  let w' := (for_each devs (per_device cfg env n k3) w).2 in
  w_key w' = w_key w ∧
  ∃ evs, w_log w' = w_log w ++ evs ∧ Forall (λ e, device_event e = true) evs.
Proof.
  revert w. induction devs as [|[label d] devs IH]; intros w.
  { split; [done|]. exists []. by rewrite app_nil_r. }
  rewrite for_each_cons.
  pose proof (per_device_cases cfg env n k3 label d w) as [Hk Hc].
  destruct (per_device cfg env n k3 (label, d) w) as [[[]|e] w1] eqn:E;
    simpl in *.
  - destruct (IH w1) as [Hk1 (evs & Hl & Hev)].
    split; [congruence|].
    destruct Hc as [(_ & ? & _)|[(? & ? & _ & ? & _)|[(? & ? & _ & ? & _)|
      (st & t & _ & _ & _ & _ & Hl1)]]]; try done.
    eexists. rewrite Hl, Hl1, <- app_assoc. split; [done|].
    apply Forall_app. split; [|done]. by repeat constructor.
  - split; [done|].
    destruct Hc as [(_ & _ & _ & _ & Hl)|[(? & ? & _ & _ & _ & Hl)|
      [(? & ? & _ & _ & _ & Hl)|(? & ? & _ & ? & _)]]]; try done;
      eexists; (split; [exact Hl|]); by repeat constructor.
Qed.

(** One size: the events of lines 70-75, then the device loop unless the
    state builder failed. *)
Lemma per_size_cases cfg env n w :
  let k := w_key w in
  ∃ w1, w_key w1 = next_key k ∧
        w_log w1 = w_log w ++ size_events cfg k n ∧
        w_times w1 = w_times w ∧
        ((∃ e, per_size cfg env n w = (Raise e, w1))
         ∨ (∃ st, w_state w1 = Some st ∧
              per_size cfg env n w =
              for_each (devices cfg) (per_device cfg env n (subkey k 3)) w1)).
Proof.
  intros k. subst k. unfold per_size, size_events, dataset, next_key, subkey,
    get_key, split, build_state.
  destruct (split4 (w_key w)) as (k0 & k1 & k2 & k3 & Hs).
  run_m. rewrite !Hs. simpl.
  destruct (gbart env _ _ _) as [st|e] eqn:Hg; simpl.
  - eexists. split_and!; cycle 3.
    + right. exists st. split; [|reflexivity]. done.
    + done.
    + simpl. by rewrite <- !app_assoc.
    + done.
  - eexists. split_and!; cycle 3.
    + left. by exists e.
    + done.
    + simpl. by rewrite <- !app_assoc.
    + done.
Qed.

Lemma per_size_log cfg env n w :
  let w' := (per_size cfg env n w).2 in
  w_key w' = next_key (w_key w) ∧
  ∃ evs, w_log w' = w_log w ++ size_events cfg (w_key w) n ++ evs ∧
         Forall (λ e, device_event e = true) evs.
Proof.
  destruct (per_size_cases cfg env n w) as (w1 & Hk & Hl & _ & [[e ->]|(st & _ & ->)]);
    cbv zeta.
  - split; [done|]. exists []. by rewrite app_nil_r.
  - destruct (device_loop_log cfg env n (subkey (w_key w) 3) (devices cfg) w1)
      as [Hk' (evs & Hl' & Hev)].
    split; [congruence|]. exists evs. by rewrite Hl', Hl, <- app_assoc.
Qed.

Lemma sweep_data_size_events cfg k n :
  sweep_data (size_events cfg k n) = size_events cfg k n.
Proof. done. Qed.

(** The derivations of any run are those of the sizes it started, and of
    all sizes when the run completes. *)
Lemma sweep_loop_data cfg env ns w :
  let r := (for_each ns (per_size cfg env) w).1 in
  let w' := (for_each ns (per_size cfg env) w).2 in
  ∃ j, sweep_data (w_log w') =
         sweep_data (w_log w) ++ sweep_events cfg (w_key w) (take j ns) ∧
       (r = Ok tt → take j ns = ns).
Proof.
  revert w. induction ns as [|n ns IH]; intros w.
  { exists 0. by rewrite app_nil_r. }
  rewrite for_each_cons.
  destruct (per_size_log cfg env n w) as [Hk (evs & Hl & Hev)].
  destruct (per_size cfg env n w) as [[[]|e] w1]; cbn [fst snd] in *.
  - destruct (IH w1) as (j & Hd & Hok).
    exists (S j).
    rewrite Hd, Hl, !sweep_data_app, (sweep_data_device evs), app_nil_r,
      sweep_data_size_events, <- app_assoc by done.
    rewrite Hk in *. split; [done|].
    intros H. simpl. by rewrite Hok.
  - exists 1.
    rewrite Hl, !sweep_data_app, (sweep_data_device evs), app_nil_r,
      sweep_data_size_events by done.
    split; [|done]. done.
Qed.

Lemma sweep_events_take cfg k ns j :
  sweep_events cfg k (take j ns) `prefix_of` sweep_events cfg k ns.
Proof.
  revert k j. induction ns as [|n ns IH]; intros k [|j];
    cbn [take sweep_events]; try apply prefix_nil.
  apply prefix_app, IH.
Qed.

Lemma sweep_events_ext cfg1 cfg2 k ns :
  p cfg1 = p cfg2 → sigma cfg1 = sigma cfg2 →
  sweep_events cfg1 k ns = sweep_events cfg2 k ns.
Proof.
  intros Hp Hs. revert k. induction ns as [|n ns IH]; intros k; [done|].
  simpl. rewrite IH. unfold size_events, dataset. by rewrite Hp, Hs.
Qed.

Lemma run_data cfg env :
  ∃ j, sweep_data (w_log (run cfg env).2) =
         sweep_events cfg (random_key (seed cfg)) (take j (nvec cfg)) ∧
       ((run cfg env).1 = Ok tt → take j (nvec cfg) = nvec cfg).
Proof. apply (sweep_loop_data cfg env (nvec cfg) (init cfg)). Qed.

(** C1. For a fixed root seed and the same sizes, [p] and [sigma], two
    runs, whatever their clocks, devices and collaborator failures, derive
    the same split keys (next root, X key, y-noise key, chain-keys root)
    and the same datasets X and y at every size both reach, and the same
    whole sequence when both complete. *)
Theorem key_stream_reproducible cfg1 cfg2 env1 env2 :
  nvec cfg1 = nvec cfg2 → p cfg1 = p cfg2 → sigma cfg1 = sigma cfg2 →
  seed cfg1 = seed cfg2 →
  let t1 := sweep_data (w_log (run cfg1 env1).2) in
  let t2 := sweep_data (w_log (run cfg2 env2).2) in
  (∀ i e1 e2, t1 !! i = Some e1 → t2 !! i = Some e2 → e1 = e2) ∧
  ((run cfg1 env1).1 = Ok tt → (run cfg2 env2).1 = Ok tt →
   t1 = t2 ∧ t1 = sweep_events cfg1 (random_key (seed cfg1)) (nvec cfg1)).
Proof.
  intros Hn Hp Hs Hseed t1 t2.
  destruct (run_data cfg1 env1) as (j1 & H1 & Hok1).
  destruct (run_data cfg2 env2) as (j2 & H2 & Hok2).
  fold t1 in H1. fold t2 in H2.
  rewrite <- Hn, <- Hseed, <- (sweep_events_ext cfg1 cfg2) in H2 by done.
  split.
  - intros i e1 e2 He1 He2.
    rewrite H1 in He1. rewrite H2 in He2.
    eapply prefix_lookup_Some in He1; [|apply sweep_events_take].
    eapply prefix_lookup_Some in He2; [|apply sweep_events_take].
    congruence.
  - intros Ha Hb. rewrite H1, H2. rewrite <- Hn in Hok2.
    by rewrite Hok1, Hok2.
Qed.

Lemma draws_sweep_data (l : list event) : draws (sweep_data l) = draws l.
Proof.
  induction l as [|e l IH]; [done|].
  unfold sweep_data in *. destruct e; simpl;
    rewrite ?filter_cons_True, ?filter_cons_False by (simpl; congruence);
    simpl; by rewrite ?IH.
Qed.

Lemma builds_sweep_data (l : list event) : builds (sweep_data l) = builds l.
Proof.
  induction l as [|e l IH]; [done|].
  unfold sweep_data in *. destruct e; simpl;
    rewrite ?filter_cons_True, ?filter_cons_False by (simpl; congruence);
    simpl; by rewrite ?IH.
Qed.

Lemma sweep_events_draws cfg k ns :
  Forall2 (λ d b, d.2 = [b.1.1] ∧
             b.2 = jnp_add (f b.1.2)
                     (jnp_scale (sigma cfg) (random_normal d.1 d.2)))
    (draws (sweep_events cfg k ns)) (builds (sweep_events cfg k ns)).
Proof.
  revert k. induction ns as [|n ns IH]; intros k; [constructor|].
  cbn [sweep_events]. unfold draws, builds in *. rewrite !omap_app.
  apply Forall2_app; [|apply IH]. unfold size_events. simpl.
  by repeat constructor.
Qed.

Lemma sweep_events_length_draws cfg k ns :
  length (draws (sweep_events cfg k ns)) = length ns.
Proof.
  revert k. induction ns as [|n ns IH]; intros k; [done|].
  cbn [sweep_events]. unfold draws in *.
  rewrite omap_app, length_app, IH. done.
Qed.

Lemma steps_sweep_data (l : list event) : steps (sweep_data l) = steps l.
Proof.
  induction l as [|e l IH]; [done|].
  unfold sweep_data in *. destruct e; simpl;
    rewrite ?filter_cons_True, ?filter_cons_False by (simpl; congruence);
    simpl; by rewrite ?IH.
Qed.

Lemma sweep_events_steps cfg k ns :
  steps (sweep_events cfg k ns) = key_chain k ns
  ∧ draws (sweep_events cfg k ns) = step_draws k ns
  ∧ builds (sweep_events cfg k ns) = step_builds cfg k ns.
Proof.
  revert k. induction ns as [|n ns IH]; intros k; [done|].
  destruct (IH (next_key k)) as (IH1 & IH2 & IH3).
  cbn [sweep_events key_chain step_draws step_builds].
  unfold steps, draws, builds in *. rewrite !omap_app, IH1, IH2, IH3.
  done.
Qed.

(** The sizes a run started: at least the first one, all of them when the
    run completes. *)
Lemma sweep_loop_started cfg env ns w :
  let r := (for_each ns (per_size cfg env) w).1 in
  let w' := (for_each ns (per_size cfg env) w).2 in
  ∃ j, j ≤ length ns ∧ (ns ≠ [] → 1 ≤ j) ∧ (r = Ok tt → j = length ns) ∧
       sweep_data (w_log w') =
         sweep_data (w_log w) ++ sweep_events cfg (w_key w) (take j ns).
Proof.
  revert w. induction ns as [|n ns IH]; intros w.
  { exists 0. rewrite app_nil_r. by split_and!. }
  rewrite for_each_cons.
  destruct (per_size_log cfg env n w) as [Hk (evs & Hl & Hev)].
  destruct (per_size cfg env n w) as [[[]|e] w1]; cbn [fst snd] in *.
  - destruct (IH w1) as (j & Hj & _ & Hok & Hd).
    exists (S j). split_and!; [simpl; lia|lia|intros H; simpl; by rewrite Hok|].
    rewrite Hd, Hl, !sweep_data_app, (sweep_data_device evs), app_nil_r,
      sweep_data_size_events, <- app_assoc by done.
    by rewrite Hk.
  - exists 1. split_and!; [simpl; lia|done|done|].
    rewrite Hl, !sweep_data_app, (sweep_data_device evs), app_nil_r,
      sweep_data_size_events by done.
    done.
Qed.

(** C8 (as amended). At every sweep step the response is generated once.
    A run starts some number [j] of steps (at least the first size, all
    sizes when it completes); each started step, with sweep key [k] and
    size [n], makes exactly one noise draw, of shape [(n,)] and keyed by
    the y-noise key [subkey2] of the split of [k], and hands the state
    builder [X] and [y = f(X) + sigma * that draw].  No step draws a
    second time. *)
Theorem one_noise_draw_per_step cfg env :
  (∃ j, j ≤ length (nvec cfg) ∧ (nvec cfg ≠ [] → 1 ≤ j) ∧
        ((run cfg env).1 = Ok tt → j = length (nvec cfg)) ∧
        steps (w_log (run cfg env).2) =
          key_chain (random_key (seed cfg)) (take j (nvec cfg)) ∧
        draws (w_log (run cfg env).2) =
          step_draws (random_key (seed cfg)) (take j (nvec cfg)) ∧
        builds (w_log (run cfg env).2) =
          step_builds cfg (random_key (seed cfg)) (take j (nvec cfg)))
  ∧ Forall2 (λ d b, d.2 = [b.1.1] ∧
               b.2 = jnp_add (f b.1.2)
                       (jnp_scale (sigma cfg) (random_normal d.1 d.2)))
      (draws (w_log (run cfg env).2)) (builds (w_log (run cfg env).2))
  ∧ length (draws (w_log (run cfg env).2)) ≤ length (nvec cfg).
Proof.
  destruct (sweep_loop_started cfg env (nvec cfg) (init cfg))
    as (j & Hj & H1 & Hok & Hd).
  change (for_each (nvec cfg) (per_size cfg env) (init cfg)) with (run cfg env)
    in *.
  simpl in Hd.
  destruct (sweep_events_steps cfg (random_key (seed cfg)) (take j (nvec cfg)))
    as (Hs & Hdr & Hb).
  rewrite <- steps_sweep_data, <- draws_sweep_data, <- builds_sweep_data, Hd.
  split_and!.
  - exists j. by split_and!.
  - apply sweep_events_draws.
  - rewrite sweep_events_length_draws, length_take. lia.
Qed.

Lemma total_entries_append (m : gmap string (list float)) label t :
  total_entries (<[label := default [] (m !! label) ++ [t]]> m) =
  S (total_entries m).
Proof.
  unfold total_entries.
  destruct (m !! label) as [ts|] eqn:E; simpl.
  - rewrite <- insert_delete_eq.
    rewrite map_fold_insert_L; [|intros; lia|apply lookup_delete_eq].
    rewrite (map_fold_delete_L _ _ label ts m); [|intros; lia|done].
    rewrite length_app. simpl. lia.
  - rewrite map_fold_insert_L; [done|intros; lia|done].
Qed.

Lemma appends_app (l1 l2 : list event) :
  appends (l1 ++ l2) = appends l1 ++ appends l2.
Proof. apply omap_app. Qed.

(** A completed device loop appended one time per device, in order. *)
Lemma device_loop_table cfg env n k3 devs w :
  let r := (for_each devs (per_device cfg env n k3) w).1 in
  let w' := (for_each devs (per_device cfg env n k3) w).2 in
  ∃ evs, w_log w' = w_log w ++ evs ∧
         w_times w' = foldl record_time (w_times w) evs ∧
         (r = Ok tt →
          appends evs = (λ ld, (n, ld.1)) <$> devs ∧
          total_entries (w_times w') = total_entries (w_times w) + length devs).
Proof.
  revert w. induction devs as [|[label d] devs IH]; intros w.
  { exists []. rewrite app_nil_r. simpl. split_and!; try done; intros _; lia. }
  rewrite for_each_cons.
  pose proof (per_device_cases cfg env n k3 label d w) as [_ Hc].
  destruct (per_device cfg env n k3 (label, d) w) as [[[]|e] w1] eqn:E;
    cbn [fst snd] in *.
  - destruct Hc as [(_ & ? & _)|[(? & ? & _ & ? & _)|[(? & ? & _ & ? & _)|
      (st & t & _ & _ & _ & Ht & Hl)]]]; try done.
    destruct (IH w1) as (evs & Hl' & Ht' & Hok).
    eexists. rewrite Hl', Hl, <- app_assoc. split; [done|]. split.
    { rewrite foldl_app, Ht'. simpl. by rewrite <- Ht. }
    intros Hr. destruct (Hok Hr) as [Ha Hn]. rewrite appends_app, Ha.
    split; [done|]. rewrite Hn, Ht, total_entries_append. simpl. lia.
  - destruct Hc as [(_ & _ & Ht & _ & Hl)|[(? & ? & _ & _ & Ht & Hl)|
      [(? & ? & _ & _ & Ht & Hl)|(? & ? & _ & ? & _)]]]; try done;
      eexists; (split; [exact Hl|]); by rewrite Ht.
Qed.

Lemma per_size_table cfg env n w :
  let r := (per_size cfg env n w).1 in
  let w' := (per_size cfg env n w).2 in
  ∃ evs, w_log w' = w_log w ++ evs ∧
         w_times w' = foldl record_time (w_times w) evs ∧
         (r = Ok tt →
          appends evs = (λ ld, (n, ld.1)) <$> devices cfg ∧
          total_entries (w_times w') =
          total_entries (w_times w) + length (devices cfg)).
Proof.
  destruct (per_size_cases cfg env n w)
    as (w1 & Hk & Hl & Ht & [[e ->]|(st & _ & ->)]); cbv zeta; cbn [fst snd].
  - exists (size_events cfg (w_key w) n). by rewrite Ht.
  - destruct (device_loop_table cfg env n (subkey (w_key w) 3) (devices cfg) w1)
      as (evs & Hl' & Ht' & Hok).
    exists (size_events cfg (w_key w) n ++ evs). split_and!.
    + by rewrite Hl', Hl, <- app_assoc.
    + by rewrite Ht', foldl_app, Ht.
    + intros Hr. destruct (Hok Hr) as [Ha Hn].
      by rewrite appends_app, Ha, Hn, Ht.
Qed.

Lemma sweep_loop_table cfg env ns w :
  let r := (for_each ns (per_size cfg env) w).1 in
  let w' := (for_each ns (per_size cfg env) w).2 in
  ∃ evs, w_log w' = w_log w ++ evs ∧
         w_times w' = foldl record_time (w_times w) evs ∧
         (r = Ok tt →
          appends evs = (n ← ns; (λ ld, (n, ld.1)) <$> devices cfg) ∧
          total_entries (w_times w') =
          total_entries (w_times w) + length ns * length (devices cfg)).
Proof.
  revert w. induction ns as [|n ns IH]; intros w.
  { exists []. rewrite app_nil_r. simpl. split_and!; try done; intros _; lia. }
  rewrite for_each_cons.
  destruct (per_size_table cfg env n w) as (evs & Hl & Ht & Hok).
  destruct (per_size cfg env n w) as [[[]|e] w1]; cbn [fst snd] in *.
  - destruct (IH w1) as (evs' & Hl' & Ht' & Hok').
    exists (evs ++ evs'). split_and!.
    + by rewrite Hl', Hl, <- app_assoc.
    + by rewrite Ht', Ht, foldl_app.
    + intros Hr. destruct (Hok eq_refl) as [Ha Hn].
      destruct (Hok' Hr) as [Ha' Hn'].
      rewrite appends_app, Ha, Ha', Hn', Hn. split; [done|]. simpl. lia.
  - exists evs. done.
Qed.

(** C6. After a complete run the table holds exactly |sizes| x |devices|
    times: one was appended for each (size, device) pair, sizes in the
    configured order and, within a size, devices in the configured order;
    the table is the replay of these appends. *)
Theorem results_table_complete cfg env :
  (run cfg env).1 = Ok tt →
  appends (w_log (run cfg env).2) = sweep_order cfg
  ∧ length (appends (w_log (run cfg env).2)) =
    length (nvec cfg) * length (devices cfg)
  ∧ total_entries (w_times (run cfg env).2) =
    length (nvec cfg) * length (devices cfg)
  ∧ w_times (run cfg env).2 = times_of (w_log (run cfg env).2).
Proof.
  intros Hr.
  destruct (sweep_loop_table cfg env (nvec cfg) (init cfg))
    as (evs & Hl & Ht & Hok).
  destruct (Hok Hr) as [Ha Hn].
  change (for_each (nvec cfg) (per_size cfg env) (init cfg)) with (run cfg env)
    in *.
  simpl in Hl. rewrite Hl, Ha. split_and!.
  - done.
  - clear. induction (nvec cfg) as [|n ns IH]; [done|].
    cbn [mbind list_bind]. rewrite length_app, length_fmap, IH. simpl. lia.
  - rewrite Hn. done.
  - rewrite Ht. done.
Qed.

(** After a device iteration completes, [state] is unbound: the next
    iteration stops at [jax.device_put((state, keys), device)]. *)
Lemma second_device_unbound cfg env n k3 ld1 ld2 devs w :
  ∃ e, (for_each (ld1 :: ld2 :: devs) (per_device cfg env n k3) w).1 = Raise e.
Proof.
  destruct ld1 as [l1 d1], ld2 as [l2 d2]. rewrite for_each_cons.
  pose proof (per_device_cases cfg env n k3 l1 d1 w) as [_ Hc].
  destruct (per_device cfg env n k3 (l1, d1) w) as [[[]|e] w1];
    cbn [fst snd] in *; [|by exists e].
  destruct Hc as [(_ & ? & _)|[(? & ? & _ & ? & _)|[(? & ? & _ & ? & _)|
    (st & t & _ & _ & Hst & _)]]]; try done.
  rewrite for_each_cons.
  pose proof (per_device_cases cfg env n k3 l2 d2 w1) as [_ Hc].
  destruct (per_device cfg env n k3 (l2, d2) w1) as [[[]|e] w2];
    cbn [fst snd] in *; [|by exists e].
  destruct Hc as [(_ & ? & _)|[(? & ? & _ & ? & _)|[(? & ? & _ & ? & _)|
    (st' & t' & ? & _)]]]; congruence.
Qed.

(** X12. With two or more devices and at least one size, no run completes,
    whatever the collaborators do. *)
Lemma two_devices_never_complete cfg env :
  2 ≤ length (devices cfg) → nvec cfg ≠ [] →
  ∃ e, (run cfg env).1 = Raise e.
Proof.
  intros Hd Hn. unfold run, sweep.
  destruct (nvec cfg) as [|n ns]; [done|]. rewrite for_each_cons.
  destruct (per_size_cases cfg env n (init cfg))
    as (w1 & _ & _ & _ & [[e ->]|(st & _ & ->)]); [by exists e|].
  destruct (devices cfg) as [|ld1 [|ld2 devs]]; simpl in Hd; [lia|lia|].
  destruct (second_device_unbound cfg env n (subkey (w_key (init cfg)) 3)
              ld1 ld2 devs w1) as [e He].
  destruct (for_each _ _ w1) as [[[]|e'] w2]; [done|by exists e'].
Qed.

(** [__exit__] only reads the clock. *)
Lemma Timer_exit_pending env self w :
  w_pending (Timer__exit__ env self w).2 = w_pending w.
Proof.
  unfold Timer__exit__, time_perf_counter. run_m. by destruct (start self).
Qed.

Lemma with_Timer_pending env body w :
  w_pending (with_Timer env body w).2 =
  w_pending (body (Timer__enter__ env Timer_new w).2).2.
Proof.
  unfold with_Timer, Timer__enter__, Timer__exit__, time_perf_counter. run_m.
  by destruct (body _) as [[[]|e] w1].
Qed.

(** C4 (as amended). The Timer adds no barrier: what is pending when the
    body ends is pending when the end timestamp is taken.  The body timed
    by the sweep blocks on the outputs of the task itself, so nothing
    dispatched inside that scope is pending at its exit. *)
Theorem timed_block_materialized env label d st keys :
  (∀ body w, w_pending (with_Timer env body w).2 =
             w_pending (body (Timer__enter__ env Timer_new w).2).2)
  ∧ ∀ w, Timer_is_barrier env (timed_block env label d st keys) w.
Proof.
  split; [apply with_Timer_pending|].
  intros w. unfold Timer_is_barrier. rewrite with_Timer_pending.
  unfold timed_block, task, dispatch, jax_block_until_ready, Timer__enter__,
    time_perf_counter. run_m.
  destruct (task_call env d st keys); simpl; [|done].
  intros h Hh. apply list_elem_of_filter in Hh as [Hne Hh].
  apply elem_of_app in Hh as [Hh|Hh]; [done|].
  apply list_elem_of_singleton in Hh. done.
Qed.

(** C5. Whatever the body does, the elapsed time from the reading taken at
    entry to the reading taken after the body is recorded on the Timer; the
    outcome of the scope is the outcome of the body, so an exception
    reaches the caller as it was raised; and then the code after the scope
    is not run: nothing is appended to the results table. *)
Theorem timer_records_and_propagates env (body : M unit) n label w :
  let w0 := (Timer__enter__ env Timer_new w).2 in
  time (with_Timer env body w).1.1 =
    Some (perf_counter env (w_clock (body w0).2) - perf_counter env (w_clock w))%float
  ∧ (with_Timer env body w).1.2 = (body w0).1
  ∧ match (body w0).1 with
    | Raise e =>
        (clock_and_save env body n label w).1 = Raise e ∧
        w_times (clock_and_save env body n label w).2 = w_times (body w0).2 ∧
        appends (w_log (clock_and_save env body n label w).2) =
        appends (w_log (body w0).2)
    | Ok _ => True
    end.
Proof.
  intros w0. subst w0. split_and!.
  - unfold with_Timer, Timer__enter__, Timer__exit__, time_perf_counter. run_m.
    by destruct (body _) as [[[]|e] w1].
  - unfold with_Timer, Timer__enter__, Timer__exit__, time_perf_counter. run_m.
    by destruct (body _) as [[[]|e] w1].
  - unfold clock_and_save, timed, with_Timer, Timer__enter__, Timer__exit__,
      time_perf_counter. run_m.
    by destruct (body _) as [[[]|e] w1].
Qed.

(** A device iteration that raises leaves the results table as it was. *)
Lemma per_device_raise_table cfg env n k3 ld w e :
  (per_device cfg env n k3 ld w).1 = Raise e →
  w_times (per_device cfg env n k3 ld w).2 = w_times w ∧
  appends (w_log (per_device cfg env n k3 ld w).2) = appends (w_log w).
Proof.
  destruct ld as [label d].
  pose proof (per_device_cases cfg env n k3 label d w) as [_ Hc].
  destruct (per_device cfg env n k3 (label, d) w) as [[[]|e'] w1];
    cbn [fst snd] in *; [done|]. intros _.
  destruct Hc as [(_ & _ & Ht & _ & Hl)|[(? & ? & _ & _ & Ht & Hl)|
    [(? & ? & _ & _ & Ht & Hl)|(? & ? & _ & ? & _)]]]; try done;
    rewrite Ht, Hl, appends_app; simpl; by rewrite app_nil_r.
Qed.

(** C10. On a covariate matrix of shape [(p, n)], [gen_y] is the inline
    computation of line 72; so the [y] of every sweep step is
    [gen_y(subkey2, X)]. *)
Theorem gen_y_inline sigma k X p n :
  shape X = [p; n] →
  gen_y sigma k X = jnp_add (f X) (jnp_scale sigma (random_normal k [n])).
Proof. intros HX. unfold gen_y. by rewrite HX. Qed.

Lemma dataset_gen_y cfg k n :
  (dataset cfg k n).2 = gen_y (sigma cfg) (subkey k 2) (dataset cfg k n).1.
Proof.
  unfold dataset, gen_y, gen_X. cbn [fst snd]. by rewrite uniform_shape.
Qed.

(** Shapes of the generated dataset: covariates [(p, n)], response [(n,)]. *)
Lemma dataset_shapes cfg k n :
  shape (dataset cfg k n).1 = [p cfg; n] ∧ shape (dataset cfg k n).2 = [n].
Proof.
  unfold dataset, gen_X, f. cbn [fst snd].
  rewrite uniform_shape. split; [done|].
  rewrite add_shape.
  - by rewrite sum0_shape, cos_shape, scale_shape, uniform_shape.
  - by rewrite sum0_shape, cos_shape, !scale_shape, uniform_shape, normal_shape.
Qed.

Lemma consumed_app (l1 l2 : list event) :
  consumed (l1 ++ l2) = consumed l1 ++ consumed l2.
Proof. unfold consumed. by rewrite fmap_app, concat_app. Qed.

(** With at most one device the chain-keys root is split at most once. *)
Lemma device_loop_consumed cfg env n k3 devs w :
  length devs ≤ 1 →
  let w' := (for_each devs (per_device cfg env n k3) w).2 in
  ∃ evs, w_log w' = w_log w ++ evs ∧
         consumed evs `sublist_of` k3 :: random_split k3 (nchains cfg).
Proof.
  intros Hd. destruct devs as [|[label d] [|? ?]]; simpl in Hd; [|clear Hd|lia].
  { exists []. rewrite app_nil_r. split; [done|]. apply sublist_nil_l. }
  rewrite for_each_cons.
  pose proof (per_device_cases cfg env n k3 label d w) as [_ Hc].
  assert (∃ evs, w_log (per_device cfg env n k3 (label, d) w).2 = w_log w ++ evs ∧
            consumed evs `sublist_of` k3 :: random_split k3 (nchains cfg))
    as (evs & Hl & Hs).
  { destruct Hc as [(_ & _ & _ & _ & Hl)|[(? & ? & _ & _ & _ & Hl)|
      [(? & ? & _ & _ & _ & Hl)|(? & ? & _ & _ & _ & _ & Hl)]]];
      eexists; (split; [exact Hl|]); unfold consumed; simpl;
      rewrite ?app_nil_r; try done; apply sublist_skip, sublist_nil_l. }
  exists evs. by destruct (per_device cfg env n k3 (label, d) w) as [[[]|e] w1].
Qed.

Lemma sweep_loop_consumed cfg env ns w :
  length (devices cfg) ≤ 1 →
  let w' := (for_each ns (per_size cfg env) w).2 in
  ∃ evs, w_log w' = w_log w ++ evs ∧
         consumed evs `sublist_of` key_tree cfg (w_key w) ns.
Proof.
  intros Hd. revert w. induction ns as [|n ns IH]; intros w.
  { exists []. by rewrite app_nil_r. }
  rewrite for_each_cons.
  destruct (per_size_log cfg env n w) as [Hk _].
  assert (∃ evs, w_log (per_size cfg env n w).2 = w_log w ++ evs ∧
            consumed evs `sublist_of` size_keys cfg (w_key w))
    as (evs & Hl & Hs).
  { destruct (per_size_cases cfg env n w)
      as (w1 & _ & Hl & _ & [[e ->]|(st & _ & ->)]); cbn [snd].
    - eexists. split; [exact Hl|]. unfold size_keys.
      apply sublist_inserts_r. done.
    - destruct (device_loop_consumed cfg env n (subkey (w_key w) 3)
                  (devices cfg) w1 Hd) as (evs & Hl' & Hs).
      exists (size_events cfg (w_key w) n ++ evs).
      split; [by rewrite Hl', Hl, <- app_assoc|].
      rewrite consumed_app. unfold size_keys. by apply sublist_app. }
  destruct (per_size cfg env n w) as [[[]|e] w1]; cbn [fst snd] in *.
  - destruct (IH w1) as (evs' & Hl' & Hs').
    exists (evs ++ evs'). split; [by rewrite Hl', Hl, <- app_assoc|].
    rewrite consumed_app. cbn [key_tree]. rewrite <- Hk. by apply sublist_app.
  - exists evs. split; [done|]. cbn [key_tree]. by apply sublist_inserts_r.
Qed.

Section Splitting.
Context {T : SplitTree J}.

Lemma subkey_path k (i : nat) :
  i < 4 → path (subkey k i) = Z.of_nat i :: path k.
Proof.
  intros Hi. apply (path_split k 4). unfold subkey.
  destruct (nth_lookup_or_length (random_split k 4) i k) as [H|H]; [done|].
  rewrite split_length in H. lia.
Qed.

Lemma next_key_path k : path (next_key k) = 0%Z :: path k.
Proof. apply (subkey_path k 0). lia. Qed.

Lemma chain_paths k n :
  path <$> random_split k n = (λ i : nat, Z.of_nat i :: path k) <$> seq 0 n.
Proof.
  apply list_eq. intros i. rewrite !list_lookup_fmap.
  destruct (decide (i < n)) as [Hi|Hi].
  - rewrite lookup_seq_lt by done. simpl.
    destruct (lookup_lt_is_Some_2 (random_split k n) i) as [c Hc].
    { by rewrite split_length. }
    rewrite Hc. simpl. f_equal. by eapply path_split.
  - rewrite lookup_seq_ge by lia.
    rewrite (lookup_ge_None_2 (random_split k n)); [done|].
    rewrite split_length. lia.
Qed.

Lemma size_keys_paths cfg k :
  path <$> size_keys cfg k =
  [path k; 1%Z :: path k; 2%Z :: path k; 3%Z :: path k] ++
  ((λ i : nat, Z.of_nat i :: 3%Z :: path k) <$> seq 0 (nchains cfg)).
Proof.
  unfold size_keys. rewrite fmap_app. cbn [fmap list_fmap app].
  rewrite chain_paths, !subkey_path by lia. done.
Qed.

Ltac path_absurd :=
  match goal with
  | H : _ :: _ = _ :: _ |- _ => by inversion H
  | H : @eq (list Z) _ _ |- _ =>
    apply (f_equal length) in H; simpl in H; rewrite ?length_app in H;
    simpl in H; lia
  end.

Lemma size_keys_NoDup cfg k : NoDup (size_keys cfg k).
Proof.
  apply (NoDup_fmap_1 path). rewrite size_keys_paths.
  assert (∀ x (l : list Z), x ∉ (λ i : nat, Z.of_nat i :: 3%Z :: l) <$>
                                  seq 0 (nchains cfg) ↔
            ∀ i : nat, x ≠ Z.of_nat i :: 3%Z :: l ∨ nchains cfg ≤ i) as Hch.
  { intros x l. rewrite list_elem_of_fmap. split.
    - intros Hn i. destruct (decide (i < nchains cfg)); [left|right; lia].
      intros ->. apply Hn. exists i. split; [done|].
      apply elem_of_seq. lia.
    - intros Hn (i & -> & Hi). apply elem_of_seq in Hi.
      destruct (Hn i); [done|lia]. }
  cbn [app]. repeat apply NoDup_cons_2.
  - rewrite !not_elem_of_cons, Hch. split_and!; try (intros ?; path_absurd).
    intros i. left. intros ?; path_absurd.
  - rewrite !not_elem_of_cons, Hch. split_and!; try (intros ?; path_absurd).
    intros i. left. intros ?; path_absurd.
  - rewrite !not_elem_of_cons, Hch. split_and!; try (intros ?; path_absurd).
    intros i. left. intros ?; path_absurd.
  - rewrite Hch. intros i. left. intros ?; path_absurd.
  - apply NoDup_fmap_2_strong; [|apply NoDup_seq].
    intros i j _ _ H. inversion H. lia.
Qed.

(** Every key of a sweep that starts from [k] descends from [k]. *)
Lemma key_tree_descend cfg k ns c :
  c ∈ key_tree cfg k ns → ∃ q, path c = q ++ path k.
Proof.
  revert k. induction ns as [|n ns IH]; intros k; cbn [key_tree].
  { by intros ?%elem_of_nil. }
  intros [Hc|Hc]%elem_of_app.
  - apply (list_elem_of_fmap_2 path) in Hc. rewrite size_keys_paths in Hc.
    apply elem_of_app in Hc as [Hc|Hc].
    + rewrite !elem_of_cons in Hc.
      destruct Hc as [->|[->|[->|[->|?%elem_of_nil]]]]; try done.
      * by exists [].
      * by exists [1%Z].
      * by exists [2%Z].
      * by exists [3%Z].
    + apply list_elem_of_fmap in Hc as (i & -> & _).
      by exists [Z.of_nat i; 3%Z].
  - destruct (IH _ Hc) as [q Hq]. exists (q ++ [0%Z]).
    by rewrite Hq, next_key_path, <- app_assoc.
Qed.

Lemma key_tree_NoDup cfg k ns : NoDup (key_tree cfg k ns).
Proof.
  revert k. induction ns as [|n ns IH]; intros k; cbn [key_tree].
  { constructor. }
  apply NoDup_app. split_and!; [apply size_keys_NoDup| |apply IH].
  intros c Hc Hc'.
  apply key_tree_descend in Hc' as [q Hq]. rewrite next_key_path in Hq.
  apply (list_elem_of_fmap_2 path) in Hc. rewrite size_keys_paths, Hq in Hc.
  apply elem_of_app in Hc as [Hc|Hc].
  - rewrite !elem_of_cons in Hc.
    destruct Hc as [Hc|[Hc|[Hc|[Hc|?%elem_of_nil]]]]; try done;
      destruct q as [|x [|y q]]; simpl in Hc; path_absurd.
  - apply list_elem_of_fmap in Hc as (i & Hc & _).
    destruct q as [|x [|y q]]; simpl in Hc; path_absurd.
Qed.

(** C2 (as amended). With at most one configured device every key is
    handed to a splitting or drawing operation at most once: the sweep
    key, the X key, the y-noise key, the chain-keys root and the chain
    keys of every size are pairwise distinct and none is consumed twice. *)
Theorem single_device_keys_consumed_once cfg env :
  length (devices cfg) ≤ 1 → keys_consumed_once cfg env.
Proof.
  intros Hd. unfold keys_consumed_once.
  destruct (sweep_loop_consumed cfg env (nvec cfg) (init cfg) Hd)
    as (evs & Hl & Hs).
  change (for_each (nvec cfg) (per_size cfg env) (init cfg)) with (run cfg env)
    in *.
  simpl in Hl. rewrite Hl.
  eapply sublist_NoDup; [|exact Hs]. apply key_tree_NoDup.
Qed.

End Splitting.

End Properties.

(** ** The annotation box *)

Lemma dict_update_lookup (d v : gmap string pyval) (f : string) :
  dict_update d v !! f = match v !! f with Some x => Some x | None => d !! f end.
Proof.
  unfold dict_update. rewrite lookup_union.
  by destruct (v !! f), (d !! f).
Qed.

(** The loop merges the dictionaries given for dictionary defaults into
    [kwargs] and removes them from [newkw]; all other entries stay. *)
Lemma merge_loop (D N kw : gmap string pyval) :
  let st := map_fold merge_step (D, N) kw in
  ∀ k,
    st.1 !! k = match kw !! k, D !! k with
                | Some (PDict v), Some (PDict d) => Some (PDict (dict_update d v))
                | _, dflt => dflt
                end
    ∧ st.2 !! k = match kw !! k, D !! k with
                  | Some (PDict v), Some (PDict d) => None
                  | _, _ => N !! k
                  end.
Proof.
  cbv zeta.
  apply (map_fold_weak_ind
    (λ (st : gmap string pyval * gmap string pyval) (m : gmap string pyval),
       ∀ k,
         st.1 !! k = match m !! k, D !! k with
                     | Some (PDict v), Some (PDict d) =>
                         Some (PDict (dict_update d v))
                     | _, dflt => dflt
                     end
         ∧ st.2 !! k = match m !! k, D !! k with
                       | Some (PDict v), Some (PDict d) => None
                       | _, _ => N !! k
                       end)).
  { intros k. rewrite lookup_empty. done. }
  intros i x m [kwargs newkw] Hi IH k. unfold merge_step. cbn [fst snd].
  destruct (decide (k = i)) as [->|Hne].
  - destruct (IH i) as [IH1 IH2]. cbn [fst snd] in *.
    rewrite Hi in IH1, IH2. rewrite lookup_insert_eq, IH1.
    destruct x as [| | | |vd|]; cbn [fst snd]; try done.
    destruct (D !! i) as [[| | | |kd|]|] eqn:HD; cbn [fst snd]; try done.
    by rewrite lookup_insert_eq, lookup_delete_eq.
  - destruct (IH k) as [IH1 IH2]. cbn [fst snd] in *.
    rewrite lookup_insert_ne by done.
    destruct x as [| | | |vd|]; try done.
    destruct (kwargs !! i) as [[| | | |kd|]|]; cbn [fst snd]; try done.
    by rewrite lookup_insert_ne, lookup_delete_ne.
Qed.

(** C9. For every valid location, [textbox] calls [ax.annotate] with
    keyword arguments in which a dictionary passed for a dictionary default
    (such as [bbox]) is merged into the default field by field, the
    caller's fields overriding and the others keeping their defaults;
    every other keyword argument replaces the default outright, and
    defaults the caller does not mention are kept. *)
Theorem textbox_merges_nested_defaults (loc : string) (kw lp : gmap string pyval) :
  locparams !! loc = Some lp →
  ∃ kwargs,
    textbox_kwargs loc kw = Ok kwargs
    ∧ (∀ k, kwargs !! k =
            match kw !! k, dict_update kwargs_defaults lp !! k with
            | Some (PDict v), Some (PDict d) => Some (PDict (dict_update d v))
            | Some v, _ => Some v
            | None, dflt => dflt
            end)
    ∧ (∀ d v f, dict_update d v !! f =
                match v !! f with Some x => Some x | None => d !! f end).
Proof.
  intros Hloc. unfold textbox_kwargs. rewrite Hloc. cbv zeta.
  eexists. split; [reflexivity|]. split; [|apply dict_update_lookup].
  intros k. rewrite dict_update_lookup.
  destruct (merge_loop (dict_update kwargs_defaults lp) kw kw k) as [H1 H2].
  rewrite H1, H2.
  destruct (kw !! k) as [[| | | |v|]|]; try done.
  by destruct (dict_update kwargs_defaults lp !! k) as [[| | | |d|]|].
Qed.

(** * Further properties of the sweep *)

Section SweepProperties.
Context {J : Jax}.
Implicit Types (cfg : BenchmarkConfig) (env : Env) (w : world).
Local Arguments size_events : simpl never.

Ltac exec_m :=
  unfold mbind, M_bind, mret, M_ret, lift, raise, modify, emit in *; simpl in *.

(** A device iteration that completes read the clock twice, around the
    task only, and appended the difference of the two readings. *)
Lemma per_device_timing cfg env n k3 label d w :
  let keys := random_split k3 (nchains cfg) in
  let r := (per_device cfg env n k3 (label, d) w).1 in
  let w' := (per_device cfg env n k3 (label, d) w).2 in
  (w_pending w = [] → w_pending w' = [])
  ∧ (r = Ok tt →
     w_clock w' = S (S (w_clock w)) ∧
     ∃ st, w_log w' = w_log w ++
       [EChainSplit label k3 keys; EDevicePut label st keys; ETask label st keys;
        EAppend n label (perf_counter env (S (w_clock w)) -
                         perf_counter env (w_clock w))%float;
        EDel label])
  ∧ (∀ st, w_state w = Some st →
       device_put env d st keys = Ok tt → lower_compile env d st keys = Ok tt →
       task_call env d st keys = Ok tt → block_until_ready env d st keys = Ok tt →
       r = Ok tt ∧ w_state w' = None).
Proof.
  intros keys r w'. subst r w' keys.
  unfold per_device, clock_and_save, chain_split, read_state, put, timed,
    with_Timer, Timer__enter__, Timer__exit__, time_perf_counter, timed_block,
    task, dispatch, jax_block_until_ready, timer_time, times_append, del_state,
    read_state.
  exec_m. generalize (random_split k3 (nchains cfg)). intros keys.
  destruct (w_state w) as [st|] eqn:Hst; simpl; [|done].
  destruct (device_put env d st keys) as [[]|] eqn:Hput; simpl.
  2: { split_and!; try done. intros ? [= <-]. by rewrite Hput. }
  destruct (lower_compile env d st keys) as [[]|] eqn:Hc; simpl.
  2: { split_and!; try done. intros ? [= <-]. rewrite Hput, Hc. done. }
  destruct (task_call env d st keys) as [[]|] eqn:Ht; simpl.
  2: { split_and!; try done. intros ? [= <-]. rewrite Hput, Hc, Ht. done. }
  assert (∀ l : list nat, l = [] →
            filter (λ h', h' ≠ w_next w) (l ++ [w_next w]) = []) as Hf.
  { intros l ->. simpl. by rewrite filter_cons_False, filter_nil by auto. }
  destruct (block_until_ready env d st keys) as [[]|] eqn:Hb; simpl.
  2: { split_and!; try done; [apply Hf|].
       intros ? [= <-]. rewrite Hput, Hc, Ht, Hb. done. }
  split_and!; [apply Hf| |done].
  intros _. split; [done|]. exists st. by rewrite <- !app_assoc.
Qed.

(** The prelude of a size leaves the clock and the pending set alone. *)
Lemma per_size_frame cfg env n w :
  let k := w_key w in
  ∃ w1, w_key w1 = next_key k ∧
        w_log w1 = w_log w ++ size_events cfg k n ∧
        w_times w1 = w_times w ∧
        w_clock w1 = w_clock w ∧
        w_pending w1 = w_pending w ∧
        ((∃ e, gbart env (dataset cfg k n).1 (dataset cfg k n).2 (ntree cfg) = Raise e ∧
               per_size cfg env n w = (Raise e, w1))
         ∨ (∃ st, gbart env (dataset cfg k n).1 (dataset cfg k n).2 (ntree cfg) = Ok st ∧
              w_state w1 = Some st ∧
              per_size cfg env n w =
              for_each (devices cfg) (per_device cfg env n (subkey k 3)) w1)).
Proof.
  intros k. subst k. unfold per_size, size_events, dataset, next_key, subkey,
    get_key, split, build_state.
  destruct (split4 (w_key w)) as (k0 & k1 & k2 & k3 & Hs).
  exec_m. rewrite !Hs. simpl.
  destruct (gbart env _ _ _) as [st|e] eqn:Hg; simpl.
  - eexists. split_and!; cycle 5.
    + right. exists st. split; [done|]. split; [|reflexivity]. done.
    + done.
    + simpl. by rewrite <- !app_assoc.
    + done.
    + done.
    + done.
  - eexists. split_and!; cycle 5.
    + left. by exists e.
    + done.
    + simpl. by rewrite <- !app_assoc.
    + done.
    + done.
    + done.
Qed.

Lemma device_loop_pending cfg env n k3 devs w :
  w_pending w = [] →
  w_pending (for_each devs (per_device cfg env n k3) w).2 = [].
Proof.
  revert w. induction devs as [|[label d] devs IH]; intros w Hp; [done|].
  rewrite for_each_cons.
  destruct (per_device_timing cfg env n k3 label d w) as (Hp' & _ & _).
  specialize (Hp' Hp).
  destruct (per_device cfg env n k3 (label, d) w) as [[[]|e] w1];
    cbn [fst snd] in *; [by apply IH|done].
Qed.

Lemma sweep_loop_pending cfg env ns w :
  w_pending w = [] →
  w_pending (for_each ns (per_size cfg env) w).2 = [].
Proof.
  revert w. induction ns as [|n ns IH]; intros w Hp; [done|].
  rewrite for_each_cons.
  assert (w_pending (per_size cfg env n w).2 = []) as Hp'.
  { destruct (per_size_frame cfg env n w)
      as (w1 & _ & _ & _ & _ & Hp1 & [(e & _ & ->)|(st & _ & _ & ->)]).
    - cbn [snd]. congruence.
    - apply device_loop_pending. congruence. }
  destruct (per_size cfg env n w) as [[[]|e] w1]; cbn [fst snd] in *;
    [by apply IH|done].
Qed.

(** X1. Whatever happens, the script leaves no dispatched computation
    pending: every task it called was awaited before the run went on or
    stopped. *)
Theorem nothing_pending_after_run cfg env :
  w_pending (run cfg env).2 = [].
Proof. by apply sweep_loop_pending. Qed.

(** The [k]-th timed region lies between the clock readings [2k] and
    [2k+1]. *)
Definition elapsed_at (env : Env) (k : nat) : float :=
  (perf_counter env (S (2 * k)) - perf_counter env (2 * k))%float.

Lemma append_times_app (l1 l2 : list event) :
  append_times (l1 ++ l2) = append_times l1 ++ append_times l2.
Proof. apply omap_app. Qed.

Lemma device_loop_times cfg env n k3 devs w a :
  w_clock w = 2 * a →
  let r := (for_each devs (per_device cfg env n k3) w).1 in
  let w' := (for_each devs (per_device cfg env n k3) w).2 in
  ∃ evs, w_log w' = w_log w ++ evs ∧
         append_times evs =
           elapsed_at env <$> seq a (length (append_times evs)) ∧
         (r = Ok tt → w_clock w' = 2 * (a + length (append_times evs))).
Proof.
  revert w a. induction devs as [|[label d] devs IH]; intros w a Hc.
  { exists []. rewrite app_nil_r. simpl. split_and!; try done; intros _; lia. }
  rewrite for_each_cons.
  destruct (per_device_timing cfg env n k3 label d w) as (_ & Hok & _).
  pose proof (per_device_cases cfg env n k3 label d w) as [_ Hcs].
  destruct (per_device cfg env n k3 (label, d) w) as [[[]|e] w1];
    cbn [fst snd] in *.
  - destruct (Hok eq_refl) as (Hc1 & st & Hl).
    destruct (IH w1 (S a)) as (evs & Hl' & Ht & Hc'); [lia|].
    eexists. rewrite Hl', Hl, <- app_assoc. split; [done|].
    rewrite append_times_app.
    change (append_times [_; _; _; EAppend _ _ ?t; _]) with [t].
    cbn [app length]. split.
    + cbn [seq fmap list_fmap]. rewrite <- Ht. unfold elapsed_at at 1.
      rewrite Hc. done.
    + intros Hr. rewrite (Hc' Hr). lia.
  - destruct Hcs as [(_ & _ & _ & _ & Hl)|[(? & ? & _ & _ & _ & Hl)|
      [(? & ? & _ & _ & _ & Hl)|(? & ? & _ & ? & _)]]]; try done;
      eexists; (split; [exact Hl|]); by split.
Qed.

Lemma sweep_loop_times cfg env ns w a :
  w_clock w = 2 * a →
  let r := (for_each ns (per_size cfg env) w).1 in
  let w' := (for_each ns (per_size cfg env) w).2 in
  ∃ evs, w_log w' = w_log w ++ evs ∧
         append_times evs =
           elapsed_at env <$> seq a (length (append_times evs)) ∧
         (r = Ok tt → w_clock w' = 2 * (a + length (append_times evs))).
Proof.
  revert w a. induction ns as [|n ns IH]; intros w a Hc.
  { exists []. rewrite app_nil_r. simpl. split_and!; try done; intros _; lia. }
  rewrite for_each_cons.
  assert (∃ evs, w_log (per_size cfg env n w).2 = w_log w ++ evs ∧
            append_times evs =
              elapsed_at env <$> seq a (length (append_times evs)) ∧
            ((per_size cfg env n w).1 = Ok tt →
             w_clock (per_size cfg env n w).2 =
             2 * (a + length (append_times evs)))) as (evs & Hl & Ht & Hc1).
  { destruct (per_size_frame cfg env n w)
      as (w1 & _ & Hl & _ & Hc1 & _ & [(e & _ & ->)|(st & _ & _ & ->)]).
    - exists (size_events cfg (w_key w) n). cbn [fst snd]. by split_and!.
    - destruct (device_loop_times cfg env n (subkey (w_key w) 3) (devices cfg)
                  w1 a) as (evs & Hl' & Ht & Hc'); [congruence|].
      exists (size_events cfg (w_key w) n ++ evs).
      rewrite append_times_app. change (append_times (size_events _ _ _)) with
        (@nil float). cbn [app].
      split_and!; [by rewrite Hl', Hl, <- app_assoc|done|done]. }
  destruct (per_size cfg env n w) as [[[]|e] w1]; cbn [fst snd] in *.
  - destruct (IH w1 (a + length (append_times evs))) as (evs' & Hl' & Ht' & Hc');
      [by apply Hc1|].
    exists (evs ++ evs'). rewrite append_times_app, length_app.
    split_and!.
    + by rewrite Hl', Hl, <- app_assoc.
    + rewrite seq_app, fmap_app, <- Ht, <- Ht'. done.
    + intros Hr. rewrite (Hc' Hr). lia.
  - exists evs. by split_and!.
Qed.

(** The [k]-th time appended is clock reading [2k+1] minus reading [2k]. *)
Lemma recorded_times_are_consecutive_readings cfg env :
  append_times (w_log (run cfg env).2) =
  elapsed_at env <$> seq 0 (length (append_times (w_log (run cfg env).2))).
Proof.
  destruct (sweep_loop_times cfg env (nvec cfg) (init cfg) 0)
    as (evs & Hl & Ht & _); [done|].
  change (for_each (nvec cfg) (per_size cfg env) (init cfg)) with (run cfg env)
    in *.
  simpl in Hl. by rewrite Hl.
Qed.

Lemma task_calls_app (l1 l2 : list event) :
  task_calls (l1 ++ l2) = task_calls l1 + task_calls l2.
Proof. unfold task_calls. by rewrite omap_app, length_app. Qed.

(** Where a device iteration reads the clock: not at all when the state
    is unbound or the transfer or the compilation raises, twice when both
    succeed, whatever the task and the wait then do; a reading is taken
    only together with a task call. *)
Lemma per_device_clock cfg env n k3 label d w :
  let keys := random_split k3 (nchains cfg) in
  let r := (per_device cfg env n k3 (label, d) w).1 in
  let w' := (per_device cfg env n k3 (label, d) w).2 in
  (∃ evs, w_log w' = w_log w ++ evs ∧
          w_clock w' = w_clock w + 2 * task_calls evs)
  ∧ match w_state w with
    | None => w_clock w' = w_clock w ∧ r = Raise (NameError "state")
    | Some st =>
        match device_put env d st keys, lower_compile env d st keys with
        | Raise e, _ | Ok _, Raise e => w_clock w' = w_clock w ∧ r = Raise e
        | Ok _, Ok _ =>
            w_clock w' = S (S (w_clock w)) ∧
            match task_call env d st keys, block_until_ready env d st keys with
            | Raise e, _ | Ok _, Raise e => r = Raise e
            | Ok _, Ok _ => r = Ok tt
            end
        end
    end.
Proof.
  intros keys r w'. subst r w' keys.
  unfold per_device, clock_and_save, chain_split, read_state, put, timed,
    with_Timer, Timer__enter__, Timer__exit__, time_perf_counter, timed_block,
    task, dispatch, jax_block_until_ready, timer_time, times_append, del_state,
    read_state.
  exec_m. generalize (random_split k3 (nchains cfg)). intros keys.
  destruct (w_state w) as [st|] eqn:Hst; simpl.
  2: { split; [|done]. eexists. split; [reflexivity|]. simpl. lia. }
  destruct (device_put env d st keys) as [[]|] eqn:Hput; simpl.
  2: { split; [|done]. eexists. split; [by rewrite <- !app_assoc|].
       simpl. lia. }
  destruct (lower_compile env d st keys) as [[]|] eqn:Hc; simpl.
  2: { split; [|done]. eexists. split; [by rewrite <- !app_assoc|].
       simpl. lia. }
  destruct (task_call env d st keys) as [[]|] eqn:Ht; simpl.
  2: { split; [|done]. eexists. split; [by rewrite <- !app_assoc|].
       simpl. lia. }
  destruct (block_until_ready env d st keys) as [[]|] eqn:Hb; simpl.
  2: { split; [|done]. eexists. split; [by rewrite <- !app_assoc|].
       simpl. lia. }
  split; [|done]. eexists. split; [by rewrite <- !app_assoc|]. simpl. lia.
Qed.

Lemma device_loop_clock cfg env n k3 devs w :
  let w' := (for_each devs (per_device cfg env n k3) w).2 in
  ∃ evs, w_log w' = w_log w ++ evs ∧
         w_clock w' = w_clock w + 2 * task_calls evs.
Proof.
  revert w. induction devs as [|[label d] devs IH]; intros w.
  { exists []. rewrite app_nil_r. simpl. split; [done|]. unfold task_calls.
    simpl. lia. }
  rewrite for_each_cons.
  destruct (per_device_clock cfg env n k3 label d w) as [(evs & Hl & Hc) _].
  destruct (per_device cfg env n k3 (label, d) w) as [[[]|e] w1];
    cbn [fst snd] in *; [|by exists evs].
  destruct (IH w1) as (evs' & Hl' & Hc').
  exists (evs ++ evs'). rewrite Hl', Hl, <- app_assoc, Hc', Hc, task_calls_app.
  split; [done|lia].
Qed.

Lemma sweep_loop_clock cfg env ns w :
  let w' := (for_each ns (per_size cfg env) w).2 in
  ∃ evs, w_log w' = w_log w ++ evs ∧
         w_clock w' = w_clock w + 2 * task_calls evs.
Proof.
  revert w. induction ns as [|n ns IH]; intros w.
  { exists []. rewrite app_nil_r. simpl. split; [done|]. unfold task_calls.
    simpl. lia. }
  rewrite for_each_cons.
  assert (∃ evs, w_log (per_size cfg env n w).2 = w_log w ++ evs ∧
            w_clock (per_size cfg env n w).2 = w_clock w + 2 * task_calls evs)
    as (evs & Hl & Hc).
  { destruct (per_size_frame cfg env n w)
      as (w1 & _ & Hl & _ & Hc1 & _ & [(e & _ & ->)|(st & _ & _ & ->)]).
    - exists (size_events cfg (w_key w) n). cbn [snd]. split; [done|].
      rewrite Hc1. change (task_calls (size_events _ _ _)) with 0. lia.
    - destruct (device_loop_clock cfg env n (subkey (w_key w) 3) (devices cfg)
                  w1) as (evs & Hl' & Hc').
      exists (size_events cfg (w_key w) n ++ evs).
      rewrite task_calls_app. change (task_calls (size_events _ _ _)) with 0.
      split; [by rewrite Hl', Hl, <- app_assoc|]. rewrite Hc', Hc1. lia. }
  destruct (per_size cfg env n w) as [[[]|e] w1]; cbn [fst snd] in *;
    [|by exists evs].
  destruct (IH w1) as (evs' & Hl' & Hc').
  exists (evs ++ evs'). rewrite Hl', Hl, <- app_assoc, Hc', Hc, task_calls_app.
  split; [done|lia].
Qed.

(** X2. The clock is read only around the task call.  A device iteration
    reads it twice when the transfer and the compilation have succeeded,
    whatever the task and the wait then do, and not at all when the state
    is unbound or the transfer or the compilation raises: these happen
    before the first reading.  So in every run the number of readings is
    twice the number of task calls (generating the data and building the
    state read no clock), and the [k]-th time appended is reading [2k+1]
    minus reading [2k]. *)
Theorem clock_read_only_around_task_call cfg env n k3 label d w :
  let keys := random_split k3 (nchains cfg) in
  let r := (per_device cfg env n k3 (label, d) w).1 in
  let w' := (per_device cfg env n k3 (label, d) w).2 in
  match w_state w with
  | None => w_clock w' = w_clock w ∧ r = Raise (NameError "state")
  | Some st =>
      match device_put env d st keys, lower_compile env d st keys with
      | Raise e, _ | Ok _, Raise e => w_clock w' = w_clock w ∧ r = Raise e
      | Ok _, Ok _ =>
          w_clock w' = S (S (w_clock w)) ∧
          match task_call env d st keys, block_until_ready env d st keys with
          | Raise e, _ | Ok _, Raise e => r = Raise e
          | Ok _, Ok _ => r = Ok tt
          end
      end
  end
  ∧ w_clock (run cfg env).2 = 2 * task_calls (w_log (run cfg env).2)
  ∧ append_times (w_log (run cfg env).2) =
    elapsed_at env <$> seq 0 (length (append_times (w_log (run cfg env).2))).
Proof.
  cbv zeta. split_and!.
  - apply per_device_clock.
  - destruct (sweep_loop_clock cfg env (nvec cfg) (init cfg)) as (evs & Hl & Hc).
    change (for_each (nvec cfg) (per_size cfg env) (init cfg))
      with (run cfg env) in *.
    simpl in Hl, Hc. by rewrite Hl, Hc.
  - apply recorded_times_are_consecutive_readings.
Qed.

Lemma device_loop_appends cfg env n k3 devs w :
  let r := (for_each devs (per_device cfg env n k3) w).1 in
  let w' := (for_each devs (per_device cfg env n k3) w).2 in
  ∃ evs, w_log w' = w_log w ++ evs ∧
         w_times w' = foldl record_time (w_times w) evs ∧
         appends evs `prefix_of` ((λ ld, (n, ld.1)) <$> devs) ∧
         (r = Ok tt → appends evs = (λ ld, (n, ld.1)) <$> devs).
Proof.
  revert w. induction devs as [|[label d] devs IH]; intros w.
  { exists []. rewrite app_nil_r. by split_and!. }
  rewrite for_each_cons.
  pose proof (per_device_cases cfg env n k3 label d w) as [_ Hc].
  destruct (per_device cfg env n k3 (label, d) w) as [[[]|e] w1] eqn:E;
    cbn [fst snd] in *.
  - destruct Hc as [(_ & ? & _)|[(? & ? & _ & ? & _)|[(? & ? & _ & ? & _)|
      (st & t & _ & _ & _ & Ht & Hl)]]]; try done.
    destruct (IH w1) as (evs & Hl' & Ht' & Hp & Hok).
    eexists. rewrite Hl', Hl, <- app_assoc. split; [done|]. split.
    { rewrite foldl_app, Ht'. simpl. by rewrite <- Ht. }
    rewrite appends_app.
    change (appends [_; _; _; EAppend ?n ?l _; _]) with [(n, l)].
    cbn [app fmap list_fmap fst]. split.
    + by apply (prefix_app [(n, label)]).
    + intros Hr. by rewrite (Hok Hr).
  - destruct Hc as [(_ & _ & Ht & _ & Hl)|[(? & ? & _ & _ & Ht & Hl)|
      [(? & ? & _ & _ & Ht & Hl)|(? & ? & _ & ? & _)]]]; try done;
      eexists; (split; [exact Hl|]); rewrite Ht;
      (split_and!; [done|apply prefix_nil|done]).
Qed.

Lemma sweep_loop_appends cfg env ns w :
  let r := (for_each ns (per_size cfg env) w).1 in
  let w' := (for_each ns (per_size cfg env) w).2 in
  ∃ evs, w_log w' = w_log w ++ evs ∧
         w_times w' = foldl record_time (w_times w) evs ∧
         appends evs `prefix_of` (n ← ns; (λ ld, (n, ld.1)) <$> devices cfg) ∧
         (r = Ok tt →
          appends evs = (n ← ns; (λ ld, (n, ld.1)) <$> devices cfg)).
Proof.
  revert w. induction ns as [|n ns IH]; intros w.
  { exists []. rewrite app_nil_r. by split_and!. }
  rewrite for_each_cons.
  assert (∃ evs, w_log (per_size cfg env n w).2 = w_log w ++ evs ∧
            w_times (per_size cfg env n w).2 = foldl record_time (w_times w) evs ∧
            appends evs `prefix_of` ((λ ld, (n, ld.1)) <$> devices cfg) ∧
            ((per_size cfg env n w).1 = Ok tt →
             appends evs = (λ ld, (n, ld.1)) <$> devices cfg))
    as (evs & Hl & Ht & Hp & Hok).
  { destruct (per_size_frame cfg env n w)
      as (w1 & _ & Hl & Ht & _ & _ & [(e & _ & ->)|(st & _ & _ & ->)]).
    - exists (size_events cfg (w_key w) n). cbn [fst snd].
      split_and!; [done|by rewrite Ht|apply prefix_nil|done].
    - destruct (device_loop_appends cfg env n (subkey (w_key w) 3)
                  (devices cfg) w1) as (evs & Hl' & Ht' & Hp & Hok).
      exists (size_events cfg (w_key w) n ++ evs). rewrite appends_app.
      change (appends (size_events _ _ _)) with (@nil (Z * string)).
      cbn [app]. split_and!; [|by rewrite Ht', foldl_app, Ht|done|done].
      by rewrite Hl', Hl, <- app_assoc. }
  cbn [mbind list_bind].
  destruct (per_size cfg env n w) as [[[]|e] w1]; cbn [fst snd] in *.
  - destruct (IH w1) as (evs' & Hl' & Ht' & Hp' & Hok').
    exists (evs ++ evs'). rewrite appends_app, (Hok eq_refl). split_and!.
    + by rewrite Hl', Hl, <- app_assoc.
    + by rewrite Ht', Ht, foldl_app.
    + by apply prefix_app.
    + intros Hr. by rewrite (Hok' Hr).
  - exists evs. split_and!; [done|done| |done].
    by apply prefix_app_r.
Qed.

(** X3. At every point a run can stop, the times appended so far are an
    initial segment of the sweep order (no pair skipped, none out of
    order), and the table is the replay of exactly these appends: after a
    failure the partial table holds the pairs completed before it. *)
Theorem partial_table_in_sweep_order cfg env :
  appends (w_log (run cfg env).2) `prefix_of` sweep_order cfg
  ∧ w_times (run cfg env).2 = times_of (w_log (run cfg env).2).
Proof.
  destruct (sweep_loop_appends cfg env (nvec cfg) (init cfg))
    as (evs & Hl & Ht & Hp & _).
  change (for_each (nvec cfg) (per_size cfg env) (init cfg)) with (run cfg env)
    in *.
  simpl in Hl. by rewrite Hl, Ht.
Qed.

Lemma sweep_events_builds cfg k ns :
  (builds (sweep_events cfg k ns)).*1.*1 = ns
  ∧ Forall (λ b, shape b.1.2 = [p cfg; b.1.1] ∧ shape b.2 = [b.1.1])
      (builds (sweep_events cfg k ns)).
Proof.
  revert k. induction ns as [|n ns IH]; intros k; [by split|].
  cbn [sweep_events]. unfold builds in *. rewrite omap_app.
  change (omap _ (size_events cfg k n))
    with [(n, (dataset cfg k n).1, (dataset cfg k n).2)].
  destruct (IH (next_key k)) as [IH1 IH2]. cbn [app fmap list_fmap fst].
  split; [by rewrite IH1|].
  constructor; [|done]. apply dataset_shapes.
Qed.

(** X4. The state builder is called once for each size the run starts, in
    the configured order, and always receives covariates of shape
    [(p, n)] and a response of shape [(n,)] for that size. *)
Theorem state_builder_inputs cfg env :
  (builds (w_log (run cfg env).2)).*1.*1 `prefix_of` nvec cfg
  ∧ Forall (λ b, shape b.1.2 = [p cfg; b.1.1] ∧ shape b.2 = [b.1.1])
      (builds (w_log (run cfg env).2))
  ∧ match (run cfg env).1 with
    | Ok _ => (builds (w_log (run cfg env).2)).*1.*1 = nvec cfg
    | Raise _ => True
    end.
Proof.
  destruct (run_data cfg env) as (j & Hd & Hok).
  rewrite <- builds_sweep_data, Hd.
  destruct (sweep_events_builds cfg (random_key (seed cfg)) (take j (nvec cfg)))
    as [H1 H2].
  rewrite H1. split_and!; [apply prefix_take|done|].
  destruct (run cfg env).1 as [[]|]; [|done]. by apply Hok.
Qed.

Lemma device_loop_good cfg env n k3 devs w st :
  never_fails env → w_state w = Some st →
  let r := (for_each devs (per_device cfg env n k3) w).1 in
  let w' := (for_each devs (per_device cfg env n k3) w).2 in
  match devs with
  | [] | [_] => r = Ok tt
  | ld1 :: _ :: _ =>
      r = Raise (NameError "state") ∧
      appends (w_log w') = appends (w_log w) ++ [(n, ld1.1)]
  end.
Proof.
  intros (_ & Hput & Hc & Ht & Hb) Hst.
  destruct devs as [|[l1 d1] devs]; [done|]. cbv zeta.
  rewrite for_each_cons.
  destruct (per_device_timing cfg env n k3 l1 d1 w) as (_ & Hlog & Hgood).
  destruct (Hgood st Hst (Hput _ _ _) (Hc _ _ _) (Ht _ _ _) (Hb _ _ _))
    as [Hr Hst1].
  destruct (per_device cfg env n k3 (l1, d1) w) as [[[]|e] w1];
    cbn [fst snd] in *; [|done].
  destruct devs as [|[l2 d2] devs]; [done|].
  rewrite for_each_cons.
  pose proof (per_device_cases cfg env n k3 l2 d2 w1) as [_ Hcs].
  destruct Hcs as [(_ & Hr2 & _ & _ & Hl2)|[(? & ? & ? & _)|[(? & ? & ? & _)|
    (? & ? & ? & _)]]]; try congruence.
  destruct (per_device cfg env n k3 (l2, d2) w1) as [[[]|e] w2];
    cbn [fst snd] in *; [done|].
  split; [done|]. destruct (Hlog eq_refl) as (_ & st' & Hl1).
  rewrite Hl2, Hl1, !appends_app. simpl. by rewrite app_nil_r.
Qed.

Lemma sweep_loop_good cfg env ns w :
  length (devices cfg) ≤ 1 → never_fails env →
  (for_each ns (per_size cfg env) w).1 = Ok tt.
Proof.
  intros Hd Hnf. revert w. induction ns as [|n ns IH]; intros w; [done|].
  rewrite for_each_cons.
  assert ((per_size cfg env n w).1 = Ok tt) as Hr.
  { destruct (per_size_frame cfg env n w)
      as (w1 & _ & _ & _ & _ & _ & [(e & Hg & _)|(st & _ & Hst & ->)]).
    - destruct Hnf as [Hg' _]. destruct (Hg' (dataset cfg (w_key w) n).1
        (dataset cfg (w_key w) n).2 (ntree cfg)) as [st Hst]. congruence.
    - pose proof (device_loop_good cfg env n (subkey (w_key w) 3)
                    (devices cfg) w1 st Hnf Hst) as H.
      destruct (devices cfg) as [|? [|? ?]]; simpl in Hd; [done|done|lia]. }
  destruct (per_size cfg env n w) as [[[]|e] w1]; cbn [fst snd] in *;
    [apply IH|done].
Qed.

(** X5. With at most one configured device and collaborators that do not
    raise, the sweep runs to the end for every list of sizes. *)
Theorem single_device_run_completes cfg env :
  length (devices cfg) ≤ 1 → never_fails env → (run cfg env).1 = Ok tt.
Proof. intros. by apply sweep_loop_good. Qed.

(** X6. With two or more configured devices, a non-empty sweep stops at
    the second device of the first size with [NameError] for [state], even
    when no collaborator raises; only the first device of the first size
    has a time. *)
Theorem second_device_always_unbound cfg env n ns :
  2 ≤ length (devices cfg) → never_fails env → nvec cfg = n :: ns →
  (run cfg env).1 = Raise (NameError "state")
  ∧ appends (w_log (run cfg env).2) = (λ ld, (n, ld.1)) <$> take 1 (devices cfg).
Proof.
  intros Hd Hnf Hn. unfold run, sweep. rewrite Hn, for_each_cons.
  destruct (per_size_frame cfg env n (init cfg))
    as (w1 & _ & Hl & _ & _ & _ & [(e & Hg & _)|(st & _ & Hst & ->)]).
  { destruct Hnf as [Hg' _]. destruct (Hg' (dataset cfg (w_key (init cfg)) n).1
      (dataset cfg (w_key (init cfg)) n).2 (ntree cfg)) as [st Hst]. congruence. }
  pose proof (device_loop_good cfg env n (subkey (w_key (init cfg)) 3)
                (devices cfg) w1 st Hnf Hst) as H.
  destruct (devices cfg) as [|ld1 [|ld2 devs]]; simpl in Hd; [lia|lia|].
  cbv zeta in H. destruct H as [Hr Ha].
  destruct (for_each _ _ w1) as [[[]|e] w2]; cbn [fst snd] in *; [done|].
  split; [done|]. rewrite Ha, Hl, appends_app. done.
Qed.

Lemma filter_label_absent (l : string) (n : Z) (devs : list (string * device)) :
  l ∉ devs.*1 →
  filter (λ x : Z * string, x.2 = l) ((λ ld, (n, ld.1)) <$> devs) = [].
Proof.
  induction devs as [|[l' d] devs IH]; cbn [fmap list_fmap fst]; [done|].
  intros [Hne Hn]%not_elem_of_cons.
  rewrite filter_cons_False by (simpl; congruence). by apply IH.
Qed.

Lemma filter_label_fmap (l : string) (n : Z) (devs : list (string * device)) :
  NoDup devs.*1 → l ∈ devs.*1 →
  length (filter (λ x : Z * string, x.2 = l) ((λ ld, (n, ld.1)) <$> devs)) = 1.
Proof.
  induction devs as [|[l' d] devs IH]; cbn [fmap list_fmap fst].
  { by intros _ ?%elem_of_nil. }
  intros [Hn Hnd]%NoDup_cons [->|Hin]%elem_of_cons.
  - rewrite filter_cons_True by done. by rewrite filter_label_absent.
  - rewrite filter_cons_False; [by apply IH|].
    simpl. intros ->. done.
Qed.

Lemma filter_label_sweep (l : string) (ns : list Z) (devs : list (string * device)) :
  NoDup devs.*1 → l ∈ devs.*1 →
  length (filter (λ x : Z * string, x.2 = l)
            (n ← ns; (λ ld, (n, ld.1)) <$> devs)) = length ns.
Proof.
  intros Hnd Hin. induction ns as [|n ns IH]; [done|].
  cbn [mbind list_bind]. rewrite filter_app, length_app, IH.
  by rewrite filter_label_fmap.
Qed.

Lemma replay_entries (m : gmap string (list float)) (evs : list event) (l : string) :
  entries (foldl record_time m evs) l =
  entries m l + length (filter (λ x : Z * string, x.2 = l) (appends evs)).
Proof.
  revert m. induction evs as [|e evs IH]; intros m; simpl; [lia|].
  rewrite IH. destruct e; simpl; try lia.
  destruct (decide (label = l)) as [->|Hne].
  - rewrite filter_cons_True by done. unfold entries.
    rewrite lookup_insert_eq. simpl. rewrite length_app. simpl. lia.
  - rewrite filter_cons_False by done. unfold entries.
    by rewrite lookup_insert_ne.
Qed.

Lemma replay_lookup (m : gmap string (list float)) (evs : list event) (l : string) :
  is_Some (foldl record_time m evs !! l) ↔
  is_Some (m !! l) ∨ l ∈ (appends evs).*2.
Proof.
  revert m. induction evs as [|e evs IH]; intros m; simpl.
  { split; [by left|]. intros [?|?%elem_of_nil]; done. }
  rewrite IH. destruct e; simpl; try done.
  rewrite elem_of_cons. destruct (decide (label = l)) as [->|Hne].
  - rewrite lookup_insert_eq. split; [intros _; right; by left|].
    intros _. left. by eexists.
  - rewrite lookup_insert_ne by done.
    split; [intros [?|?]; [by left|right; by right]|].
    intros [?|[?|?]]; [by left|congruence|by right].
Qed.

Lemma elem_of_sweep_labels (l : string) (ns : list Z) (devs : list (string * device)) :
  l ∈ (n ← ns; (λ ld, (n, ld.1)) <$> devs).*2 ↔ l ∈ devs.*1 ∧ ns ≠ [].
Proof.
  induction ns as [|n ns IH]; cbn [mbind list_bind fmap list_fmap].
  { split; [by intros ?%elem_of_nil|by intros [_ ?]]. }
  rewrite fmap_app, elem_of_app, IH, <- list_fmap_compose.
  split; [|intros [? _]; by left]. intros [?|[? _]]; done.
Qed.

(** X7. After a complete run over distinct device labels the table is
    rectangular: its keys are device labels, each holds exactly one time
    per size, and every label is present as soon as there is a size.  So
    the transposed array of line 170 has one row per size. *)
Theorem completed_table_is_rectangular cfg env :
  (run cfg env).1 = Ok tt → NoDup (devices cfg).*1 →
  (∀ l ts, w_times (run cfg env).2 !! l = Some ts →
           l ∈ (devices cfg).*1 ∧ length ts = length (nvec cfg))
  ∧ (∀ l, l ∈ (devices cfg).*1 → nvec cfg ≠ [] →
          is_Some (w_times (run cfg env).2 !! l)).
Proof.
  intros Hr Hnd.
  destruct (sweep_loop_appends cfg env (nvec cfg) (init cfg))
    as (evs & _ & Ht & _ & Hok).
  change (for_each (nvec cfg) (per_size cfg env) (init cfg)) with (run cfg env)
    in *.
  specialize (Hok Hr). simpl in Ht. split.
  - intros l ts Hl.
    assert (l ∈ (devices cfg).*1 ∧ nvec cfg ≠ []) as [Hin _].
    { apply elem_of_sweep_labels. rewrite <- Hok.
      assert (is_Some (foldl record_time ∅ evs !! l)) as Hs
        by (rewrite <- Ht; by eexists).
      apply replay_lookup in Hs as [Hs|Hs]; [|done].
      rewrite lookup_empty in Hs. by destruct Hs. }
    split; [done|].
    pose proof (replay_entries ∅ evs l) as He. rewrite <- Ht in He.
    unfold entries in He. rewrite Hl, lookup_empty, Hok in He. simpl in He.
    by rewrite He, filter_label_sweep.
  - intros l Hin Hn. rewrite Ht. apply replay_lookup. right.
    rewrite Hok. by apply elem_of_sweep_labels.
Qed.

(** X8. Shapes of the data generating process: [f] removes the leading
    axis, [gen_X] has shape [(p, n)], and [gen_y] on a matrix of shape
    [(p, n)] has shape [(n,)]. *)
Theorem gen_shapes sigma k X p n :
  shape X = [p; n] →
  shape (f X) = [n] ∧ shape (gen_y sigma k X) = [n]
  ∧ shape (gen_X k p n) = [p; n].
Proof.
  intros HX.
  assert (shape (f X) = [n]) as Hf.
  { unfold f. by rewrite sum0_shape, cos_shape, scale_shape, HX. }
  split_and!; [done| |apply uniform_shape].
  unfold gen_y. rewrite add_shape; [done|].
  by rewrite Hf, scale_shape, normal_shape, HX.
Qed.

End SweepProperties.

(** * Further properties of the annotation box *)

Lemma locparams_lookup_None (loc : string) :
  locparams !! loc = None ↔ loc ∉ valid_locs.
Proof.
  unfold locparams. cbv zeta. rewrite <- not_elem_of_list_to_map. done.
Qed.

(** X9. [textbox] accepts exactly the nine locations of its docstring: on
    any other [loc] it raises [KeyError] for that string and never calls
    [ax.annotate]; on the nine it does call it. *)
Theorem textbox_loc_domain {Ax R : Type}
    (annotate : Ax → string → gmap string pyval → R) ax text loc kw :
  (loc ∈ valid_locs ↔
   ∃ kwargs, textbox annotate ax text loc kw = Ok (annotate ax text kwargs))
  ∧ (loc ∉ valid_locs ↔
     textbox annotate ax text loc kw = Raise (KeyError loc)).
Proof.
  pose proof (locparams_lookup_None loc) as HN.
  unfold textbox, textbox_kwargs.
  destruct (locparams !! loc) as [lp|] eqn:E; cbv zeta.
  - assert (loc ∈ valid_locs) as Hin.
    { destruct (decide (loc ∈ valid_locs)) as [|Hn]; [done|].
      apply HN in Hn. done. }
    split; (split; [|done]).
    + intros _. by eexists.
    + intros Hn. by destruct Hn.
  - assert (loc ∉ valid_locs) as Hn by (by apply HN).
    split; (split; [done|]).
    + by intros [? ?].
    + done.
Qed.

(** X10. The table of locations follows one rule: for each of the nine
    names, the anchor is at 0, 1/2 or 1 along each axis, the text is
    offset by 8 points toward the inside of the axes (+8 at 0, 0 at 1/2,
    -8 at 1) and aligned on the anchor's side. *)
Theorem locparams_follow_placement_rule :
  locparams = list_to_map placement_rule
  ∧ placement_rule.*1 = valid_locs.
Proof. split; [vm_compute; reflexivity|reflexivity]. Qed.

Lemma locparam_keys (xy xytext : pyval * pyval) (va ha k : string) :
  is_Some (locparam xy xytext va ha !! k) ↔
  k ∈ ["xy"; "xytext"; "va"; "ha"]%string.
Proof.
  unfold locparam. rewrite <- elem_of_dom, dom_list_to_map_L.
  cbn [fmap list_fmap fst]. by rewrite elem_of_list_to_set.
Qed.

Lemma locparams_keys (loc : string) (lp : gmap string pyval) (k : string) :
  locparams !! loc = Some lp →
  is_Some (lp !! k) ↔ k ∈ ["xy"; "xytext"; "va"; "ha"]%string.
Proof.
  unfold locparams. cbv zeta. intros H%elem_of_list_to_map_2.
  repeat (apply elem_of_cons in H as [[= _ ->]|H]; [apply locparam_keys|]).
  by apply elem_of_nil in H.
Qed.

Lemma kwargs_defaults_keys (k : string) :
  is_Some (kwargs_defaults !! k) ↔ k ∈ ["xycoords"; "textcoords"; "bbox"]%string.
Proof.
  unfold kwargs_defaults. rewrite <- elem_of_dom, dom_list_to_map_L.
  cbn [fmap list_fmap fst]. by rewrite elem_of_list_to_set.
Qed.

(** X11. For every valid location the keyword arguments handed to
    [ax.annotate] have exactly the caller's keys and the seven keys
    [textbox] sets itself: no key of the caller is dropped and none of the
    seven is ever missing, whatever the caller passes. *)
Theorem textbox_keeps_every_key (loc : string) (kw : gmap string pyval) :
  loc ∈ valid_locs →
  ∃ kwargs,
    textbox_kwargs loc kw = Ok kwargs
    ∧ ∀ k, is_Some (kwargs !! k) ↔ is_Some (kw !! k) ∨ k ∈ annotate_keys.
Proof.
  intros Hin. unfold textbox_kwargs.
  destruct (locparams !! loc) as [lp|] eqn:E; cbv zeta.
  2: { apply locparams_lookup_None in E. done. }
  eexists. split; [reflexivity|]. intros k.
  rewrite dict_update_lookup.
  destruct (merge_loop (dict_update kwargs_defaults lp) kw kw k) as [H1 H2].
  rewrite H1, H2.
  assert (is_Some (dict_update kwargs_defaults lp !! k) ↔ k ∈ annotate_keys)
    as <-.
  { rewrite dict_update_lookup.
    assert (is_Some (match lp !! k with
                     | Some x => Some x
                     | None => kwargs_defaults !! k
                     end) ↔
            is_Some (lp !! k) ∨ is_Some (kwargs_defaults !! k)) as ->.
    { destruct (lp !! k) as [x|].
      - split; [left; by eexists|by eexists].
      - split; [by right|]. by intros [[? [=]]|?]. }
    rewrite (locparams_keys loc lp k E), kwargs_defaults_keys.
    unfold annotate_keys. rewrite !elem_of_cons, !elem_of_nil. tauto. }
  assert (∀ x : pyval, is_Some (Some x) ↔ True) as HS
    by (intros; split; [done|by eexists]).
  assert (is_Some (@None pyval) ↔ False) as HN
    by (split; [by intros [? ?]|done]).
  destruct (kw !! k) as [[| | | |v|]|];
    destruct (dict_update kwargs_defaults lp !! k) as [[| | | |d|]|];
    rewrite ?HS, ?HN; tauto.
Qed.

(** * Concrete runs *)

Lemma key_stream_reproducible_witness :
  let t1 := sweep_data (w_log (run Sym.small Sym.env_ok).2) in
  let t2 := sweep_data (w_log (run Sym.small_two_devices Sym.env_wait_fails).2) in
  (∀ i e1 e2, t1 !! i = Some e1 → t2 !! i = Some e2 → e1 = e2) ∧
  ((run Sym.small Sym.env_ok).1 = Ok tt →
   (run Sym.small_two_devices Sym.env_wait_fails).1 = Ok tt →
   t1 = t2 ∧
   t1 = sweep_events Sym.small (random_key (seed Sym.small)) (nvec Sym.small)).
Proof.
  apply (key_stream_reproducible Sym.small Sym.small_two_devices
           Sym.env_ok Sym.env_wait_fails); reflexivity.
Defined.

Lemma single_device_keys_consumed_once_witness :
  length (devices Sym.shipped) ≤ 1 ∧ keys_consumed_once Sym.shipped Sym.env_ok.
Proof.
  split; [simpl; lia|].
  apply (single_device_keys_consumed_once (T:=Sym.split_tree)). simpl. lia.
Defined.

(** C2, as stated, fails with two devices: the chain-keys root is split
    once in each device iteration. *)
Lemma chain_root_split_twice :
  ¬ keys_consumed_once Sym.two_devices Sym.env_ok.
Proof.
  unfold keys_consumed_once. intros H.
  assert (consumed (w_log (run Sym.two_devices Sym.env_ok).2) !! 3 =
          Some ([3; 202403241634]%Z : @key Sym.jax)) as H3 by (vm_compute; reflexivity).
  assert (consumed (w_log (run Sym.two_devices Sym.env_ok).2) !! 12 =
          Some ([3; 202403241634]%Z : @key Sym.jax)) as H12 by (vm_compute; reflexivity).
  pose proof (NoDup_lookup _ _ _ _ H H3 H12). discriminate.
Qed.

(** C3. With the second device enabled the run stops at the second
    device of the first size: [state] was deleted after the first device
    was timed, and only that device has a time. *)
Theorem second_device_NameError :
  (run Sym.two_devices Sym.env_ok).1 = Raise (NameError "state")
  ∧ appends (w_log (run Sym.two_devices Sym.env_ok).2) = [(100%Z, "cpu"%string)]
  ∧ length (builds (w_log (run Sym.two_devices Sym.env_ok).2)) = 1.
Proof. vm_compute. done. Qed.

(** C4, as stated, fails: a body that does not block leaves its
    computation pending when the Timer scope exits. *)
Lemma Timer_is_no_barrier :
  ¬ Timer_is_barrier Sym.env_ok Sym.call_without_wait (init Sym.shipped).
Proof.
  unfold Timer_is_barrier. intros H.
  assert (0 ∈ w_pending (init Sym.shipped)) as H0.
  { apply H. vm_compute. apply list_elem_of_here. }
  vm_compute in H0. by apply elem_of_nil in H0.
Qed.

Lemma results_table_complete_witness :
  (run Sym.small Sym.env_ok).1 = Ok tt
  ∧ appends (w_log (run Sym.small Sym.env_ok).2) = sweep_order Sym.small
  ∧ length (appends (w_log (run Sym.small Sym.env_ok).2)) =
    length (nvec Sym.small) * length (devices Sym.small)
  ∧ total_entries (w_times (run Sym.small Sym.env_ok).2) =
    length (nvec Sym.small) * length (devices Sym.small)
  ∧ w_times (run Sym.small Sym.env_ok).2 =
    times_of (w_log (run Sym.small Sym.env_ok).2).
Proof.
  split; [vm_compute; reflexivity|].
  apply (results_table_complete Sym.small Sym.env_ok).
  vm_compute. reflexivity.
Defined.

(** C8, as stated, fails: a step draws the noise once. *)
Lemma one_draw_not_two :
  ¬ two_draws_per_step Sym.small Sym.env_ok.
Proof. unfold two_draws_per_step. vm_compute. lia. Qed.

Lemma gen_y_inline_witness :
  shape Sym.X0 = [10; 100]%Z
  ∧ gen_y 0.1%float Sym.k0 Sym.X0 =
    jnp_add (f Sym.X0) (jnp_scale 0.1%float (random_normal Sym.k0 [100]%Z)).
Proof.
  split; [reflexivity|].
  apply (gen_y_inline 0.1%float Sym.k0 Sym.X0 10 100). reflexivity.
Defined.

Lemma textbox_merges_nested_defaults_witness :
  locparams !! "lower right"%string =
    Some (locparam (PInt 1, PInt 0) (PInt (-8), PInt 8) "bottom" "right")
  ∧ ∃ kwargs,
      textbox_kwargs "lower right"
        {[ "bbox"%string := PDict {[ "alpha"%string := PFloat 0.5 ]} ]} = Ok kwargs
      ∧ (∀ k, kwargs !! k =
              match ({[ "bbox"%string := PDict {[ "alpha"%string := PFloat 0.5 ]} ]}
                       : gmap string pyval) !! k,
                    dict_update kwargs_defaults
                      (locparam (PInt 1, PInt 0) (PInt (-8), PInt 8)
                         "bottom" "right") !! k with
              | Some (PDict v), Some (PDict d) => Some (PDict (dict_update d v))
              | Some v, _ => Some v
              | None, dflt => dflt
              end)
      ∧ (∀ d v f, dict_update d v !! f =
                  match v !! f with Some x => Some x | None => d !! f end).
Proof.
  assert (locparams !! "lower right"%string =
          Some (locparam (PInt 1, PInt 0) (PInt (-8), PInt 8) "bottom" "right"))
    as Hloc by (vm_compute; reflexivity).
  split; [exact Hloc|].
  exact (textbox_merges_nested_defaults "lower right" _ _ Hloc).
Defined.

Lemma single_device_run_completes_witness :
  length (devices Sym.small) ≤ 1 ∧ never_fails Sym.env_ok
  ∧ (run Sym.small Sym.env_ok).1 = Ok tt.
Proof.
  assert (never_fails Sym.env_ok) as Hnf.
  { unfold never_fails. simpl. split_and!; try done. intros X y _. by exists (X, y). }
  split_and!; [simpl; lia|exact Hnf|].
  apply (single_device_run_completes Sym.small Sym.env_ok); [simpl; lia|exact Hnf].
Defined.

Lemma second_device_always_unbound_witness :
  2 ≤ length (devices Sym.two_devices) ∧ never_fails Sym.env_ok
  ∧ nvec Sym.two_devices = [100%Z]
  ∧ (run Sym.two_devices Sym.env_ok).1 = Raise (NameError "state")
  ∧ appends (w_log (run Sym.two_devices Sym.env_ok).2) =
    (λ ld, (100%Z, ld.1)) <$> take 1 (devices Sym.two_devices).
Proof.
  assert (never_fails Sym.env_ok) as Hnf.
  { unfold never_fails. simpl. split_and!; try done. intros X y _. by exists (X, y). }
  split_and!; [simpl; lia|exact Hnf|reflexivity|..];
    apply (second_device_always_unbound Sym.two_devices Sym.env_ok 100 []);
    try exact Hnf; try reflexivity; simpl; lia.
Defined.

Lemma two_devices_never_complete_witness :
  2 ≤ length (devices Sym.small_two_devices) ∧ nvec Sym.small_two_devices ≠ []
  ∧ ∃ e, (run Sym.small_two_devices Sym.env_wait_fails).1 = Raise e.
Proof.
  split_and!; [simpl; lia|done|].
  apply (two_devices_never_complete Sym.small_two_devices Sym.env_wait_fails);
    [simpl; lia|done].
Defined.

Lemma completed_table_is_rectangular_witness :
  (run Sym.small Sym.env_ok).1 = Ok tt ∧ NoDup (devices Sym.small).*1
  ∧ (∀ l ts, w_times (run Sym.small Sym.env_ok).2 !! l = Some ts →
             l ∈ (devices Sym.small).*1 ∧ length ts = length (nvec Sym.small))
  ∧ (∀ l, l ∈ (devices Sym.small).*1 → nvec Sym.small ≠ [] →
          is_Some (w_times (run Sym.small Sym.env_ok).2 !! l)).
Proof.
  assert (NoDup (devices Sym.small).*1) as Hnd.
  { simpl. apply NoDup_singleton. }
  split_and!; [vm_compute; reflexivity|exact Hnd|..];
    apply (completed_table_is_rectangular Sym.small Sym.env_ok);
    try exact Hnd; vm_compute; reflexivity.
Defined.

Lemma gen_shapes_witness :
  shape Sym.X0 = [10; 100]%Z
  ∧ shape (f Sym.X0) = [100%Z]
  ∧ shape (gen_y 0.1%float Sym.k0 Sym.X0) = [100%Z]
  ∧ shape (gen_X Sym.k0 10 100) = [10; 100]%Z.
Proof.
  split; [reflexivity|].
  apply (gen_shapes 0.1%float Sym.k0 Sym.X0 10 100). reflexivity.
Defined.

Lemma textbox_keeps_every_key_witness :
  "lower right"%string ∈ valid_locs
  ∧ ∃ kwargs,
      textbox_kwargs "lower right"
        {[ "bbox"%string := PDict {[ "alpha"%string := PFloat 0.5 ]};
           "color"%string := PStr "red" ]} = Ok kwargs
      ∧ ∀ k, is_Some (kwargs !! k) ↔
             is_Some (({[ "bbox"%string := PDict {[ "alpha"%string := PFloat 0.5 ]};
                          "color"%string := PStr "red" ]}
                         : gmap string pyval) !! k)
             ∨ k ∈ annotate_keys.
Proof.
  assert ("lower right"%string ∈ valid_locs) as Hin.
  { unfold valid_locs. do 2 apply list_elem_of_further. apply list_elem_of_here. }
  split; [exact Hin|].
  exact (textbox_keeps_every_key "lower right" _ Hin).
Defined.

(** The two steps of the small sweep each draw once, from the y-noise key
    of their own split. *)
Example small_sweep_draws :
  draws (w_log (run Sym.small Sym.env_ok).2) =
  [([2; 202403241634]%Z, [100%Z]); ([2; 0; 202403241634]%Z, [1000%Z])].
Proof. vm_compute. reflexivity. Qed.

(** A failing compilation stops the run before any clock reading; a
    failing wait stops it after the two readings around the task. *)
Example clock_readings_by_failure :
  (run Sym.small Sym.env_compile_fails).1 = Raise (ExternalError 2)
  ∧ w_clock (run Sym.small Sym.env_compile_fails).2 = 0
  ∧ (run Sym.small Sym.env_wait_fails).1 = Raise (ExternalError 1)
  ∧ w_clock (run Sym.small Sym.env_wait_fails).2 = 2
  ∧ w_clock (run Sym.small Sym.env_ok).2 = 4.
Proof. vm_compute. done. Qed.
